(** * The streaming secret matcher of the masker package, and the rm
    command

    A shallow embedding of [matches.add], [newMatcher], [matcher.write],
    [sequenceDetector.writeByte] and [sequenceDetector.findShift], and the
    properties of them that the specification states; then further
    properties of the matcher, and of [RmCommand.Run] with its helpers.

    Modelling choices.
    - [map[int64]int] is a [gmap Z Z]; [add] mutates the map it is given and
      returns it, and [write] only uses the returned value, so the map is
      threaded as a value.
    - The [int64] stream counter is a [Z] with its two's complement
      wrap-around written out ([add64]).
    - Slice indices, slice lengths and the detector cursor are Go [int]s
      that stay between 0 and the length of a slice in memory; they are
      [nat]s here.  The one subtraction on the cursor, [currentIndex -=
      findShift()], never goes below zero ([findShift_le]), so truncated
      subtraction agrees with the source.
    - A slice access out of range panics in Go: [index] returns [Panic],
      and every caller propagates it.
    - [writeByte] calls itself; the model takes the call depth as fuel and
      [writeByte] runs it with depth two, which is always enough
      ([writeByte_rec_fuel]). *)

From stdpp Require Import gmap list strings.
From Stdlib Require Import Strings.Byte.

Local Open Scope Z_scope.

(** ** Results of Go code that may panic *)

Inductive outcome (A : Type) : Type :=
  | Ret (a : A)
  | Panic
  | OutOfFuel.
Arguments Ret {A} a.
Arguments Panic {A}.
Arguments OutOfFuel {A}.

#[global] Instance outcome_ret : MRet outcome := fun A a => Ret a.
#[global] Instance outcome_bind : MBind outcome := fun A B f c =>
  match c with
  | Ret a => f a
  | Panic => Panic
  | OutOfFuel => OutOfFuel
  end.

(** Reduce the binds of [outcome], and nothing else. *)
Ltac bind := cbn [mbind outcome_bind mret outcome_ret].

(** Membership in a list with a known head. *)
Ltac in_list :=
  first [ done
        | by apply elem_of_cons; auto
        | split; [by apply elem_of_cons; auto | done] ].

#[global] Instance byte_eq_decision : EqDecision byte := byte_eq_dec.

(** ** 64-bit signed arithmetic *)

Definition int64_range (z : Z) : Prop := - 2 ^ 63 <= z < 2 ^ 63.

Definition wrap64 (z : Z) : Z := (z + 2 ^ 63) mod 2 ^ 64 - 2 ^ 63.

Definition add64 (a b : Z) : Z := wrap64 (a + b).

(** ** matches *)

(** [func (m matches) add(index int64, length int) matches] *)
Definition add (m : gmap Z Z) (index length : Z) : gmap Z Z :=
  match m !! index with
  | Some existing =>
      if bool_decide (existing < length) then <[index := length]> m else m
  | None => <[index := length]> m
  end.

(** ** sequenceDetector *)

Record sequenceDetector : Type := SequenceDetector {
  sequence : list byte;
  currentIndex : nat
}.

(** [s[i]] on a slice. *)
Definition index (s : list byte) (i : nat) : outcome byte :=
  match s !! i with
  | Some b => Ret b
  | None => Panic
  end.

(** The inner loop of [findShift], [for i := 0; i < m.currentIndex-offset;
    i++], entered at [i] with [n] iterations left. *)
Fixpoint findShift_inner (s : list byte) (offset i n : nat) : outcome bool :=
  match n with
  | O => Ret true
  | S n' =>
      a ← index s i;
      b ← index s (i + offset)%nat;
      if decide (a ≠ b) then Ret false
      else findShift_inner s offset (S i) n'
  end.

(** The outer loop, [for offset := 1; offset <= m.currentIndex; offset++],
    entered at [offset] with [n] iterations left.  [Some offset] is the
    [return offset] inside the loop; [None] is falling out of the loop. *)
Fixpoint findShift_loop (s : list byte) (cursor offset n : nat)
  : outcome (option nat) :=
  match n with
  | O => Ret None
  | S n' =>
      ok ← findShift_inner s offset 0 (cursor - offset)%nat;
      if ok : bool then Ret (Some offset)
      else findShift_loop s cursor (S offset) n'
  end.

(** [func (m *sequenceDetector) findShift() int] *)
Definition findShift (m : sequenceDetector) : outcome nat :=
  r ← findShift_loop (sequence m) (currentIndex m) 1 (currentIndex m);
  Ret (default (currentIndex m) r).

(** [m.currentIndex -= m.findShift()] *)
Definition shiftCursor (m : sequenceDetector) : outcome sequenceDetector :=
  s ← findShift m;
  Ret (SequenceDetector (sequence m) (currentIndex m - s)%nat).

(** [func (m *sequenceDetector) writeByte(in byte) bool], with the depth of
    calls bounded by [fuel].  The result is the returned boolean and the
    detector as the call leaves it. *)
Fixpoint writeByte_rec (fuel : nat) (m : sequenceDetector) (b : byte)
  : outcome (bool * sequenceDetector) :=
  match fuel with
  | O => OutOfFuel
  | S fuel' =>
      c ← index (sequence m) (currentIndex m);
      if decide (c = b) then
        let m1 := SequenceDetector (sequence m) (S (currentIndex m)) in
        if decide (currentIndex m1 = length (sequence m1)) then
          Ret (true, SequenceDetector (sequence m1) 0)
        else Ret (false, m1)
      else
        m1 ← shiftCursor m;
        c' ← index (sequence m1) (currentIndex m1);
        if decide (c' = b) then writeByte_rec fuel' m1 b
        else Ret (false, m1)
  end.

Definition writeByte (m : sequenceDetector) (b : byte)
  : outcome (bool * sequenceDetector) :=
  writeByte_rec 2 m b.

(** ** matcher *)

Record matcher : Type := Matcher {
  matchers : list sequenceDetector;
  matcher_currentIndex : Z
}.

(** [func newMatcher(sequences [][]byte) *matcher] *)
Definition newMatcher (sequences : list (list byte)) : matcher :=
  Matcher ((fun s => SequenceDetector s 0) <$> sequences) 0.

(** [mb.currentIndex+int64(i-len(matcher.sequence)+1)] *)
Definition matchIndex (cur : Z) (i : nat) (m : sequenceDetector) : Z :=
  add64 cur (Z.of_nat i - Z.of_nat (length (sequence m)) + 1).

(** The loop [for _, matcher := range mb.matchers] of [write], for byte [b]
    at position [i] of the chunk. *)
Fixpoint write_matchers (cur : Z) (i : nat) (b : byte)
    (ms : list sequenceDetector) (res : gmap Z Z)
  : outcome (gmap Z Z * list sequenceDetector) :=
  match ms with
  | [] => Ret (res, [])
  | m :: ms' =>
      '(matched, m') ← writeByte m b;
      let res' :=
        if matched : bool
        then add res (matchIndex cur i m') (Z.of_nat (length (sequence m')))
        else res in
      '(res'', ms'') ← write_matchers cur i b ms' res';
      Ret (res'', m' :: ms'')
  end.

(** The loop [for i, b := range in] of [write], entered at position [i]. *)
Fixpoint write_loop (cur : Z) (i : nat) (inp : list byte)
    (ms : list sequenceDetector) (res : gmap Z Z)
  : outcome (gmap Z Z * list sequenceDetector) :=
  match inp with
  | [] => Ret (res, ms)
  | b :: inp' =>
      '(res', ms') ← write_matchers cur i b ms res;
      write_loop cur (S i) inp' ms' res'
  end.

(** [func (mb *matcher) write(in []byte) matches] *)
Definition write (mb : matcher) (inp : list byte)
  : outcome (gmap Z Z * matcher) :=
  '(res, ms) ← write_loop (matcher_currentIndex mb) 0 inp (matchers mb) ∅;
  Ret (res, Matcher ms
              (add64 (matcher_currentIndex mb) (Z.of_nat (length inp)))).

(** Successive [write] calls, one per chunk; the tables are collected in
    call order. *)
Fixpoint writes (mb : matcher) (chunks : list (list byte))
  : outcome (list (gmap Z Z) * matcher) :=
  match chunks with
  | [] => Ret ([], mb)
  | c :: chunks' =>
      '(t, mb') ← write mb c;
      '(ts, mb'') ← writes mb' chunks';
      Ret (t :: ts, mb'')
  end.

(** Concrete byte strings. *)
Definition bytes (s : String.string) : list byte :=
  String.list_byte_of_string s.
Arguments bytes s%_string.

(** ** What the specification says, for comparison *)

(** [pattern[a .. b)] *)
Definition slice (p : list byte) (a b : nat) : list byte :=
  take (b - a) (drop a p).

(** [pattern[0 .. cursor-offset)] is identical to [pattern[offset ..
    cursor)]. *)
Definition overlap (p : list byte) (cursor offset : nat) : Prop :=
  slice p 0 (cursor - offset) = slice p offset cursor.

#[global] Instance overlap_dec p cursor offset :
  Decision (overlap p cursor offset).
Proof. unfold overlap. apply _. Defined.

(** The specification's [insert]: "If offset is absent, store length.  If
    present with a stored value ≤ length, overwrite with length; otherwise
    leave unchanged." *)
Definition spec_insert (t : gmap Z Z) (offset length : Z) : gmap Z Z :=
  match t !! offset with
  | None => <[offset := length]> t
  | Some stored =>
      if bool_decide (stored <= length) then <[offset := length]> t else t
  end.


(** ** Notions the properties are stated with *)

(** Merging two match tables, keeping the longer match at every offset. *)
Definition longest (t1 t2 : gmap Z Z) : gmap Z Z :=
  union_with (fun a b => Some (Z.max a b)) t1 t2.

(** The (offset, length) pairs of a table, and of several tables. *)
Definition pairs (t : gmap Z Z) : gset (Z * Z) :=
  list_to_set (map_to_list t).

Definition pairs_union (ts : list (gmap Z Z)) : gset (Z * Z) :=
  ⋃ (pairs <$> ts).

(** The step taken when the byte is the one the cursor expects. *)
Definition advance (m : sequenceDetector) : bool * sequenceDetector :=
  if decide (S (currentIndex m) = length (sequence m))
  then (true, SequenceDetector (sequence m) 0)
  else (false, SequenceDetector (sequence m) (S (currentIndex m))).

(** A detector whose cursor is inside its pattern. *)
Definition detector_ok (m : sequenceDetector) : Prop :=
  (currentIndex m < length (sequence m))%nat.

(** The detector after it has read the bytes of [inp], one [writeByte] per
    byte. *)
Fixpoint feed (m : sequenceDetector) (inp : list byte)
  : outcome sequenceDetector :=
  match inp with
  | [] => Ret m
  | b :: inp' => '(_, m') ← writeByte m b; feed m' inp'
  end.

(** Detector [m], run on its own over the chunk [inp], reports a match on
    the byte at position [i]. *)
Definition reports (m : sequenceDetector) (inp : list byte) (i : nat) : Prop :=
  ∃ b mi m', inp !! i = Some b ∧ feed m (take i inp) = Ret mi ∧
             writeByte mi b = Ret (true, m').

(** [reports], as a test. *)
Definition reportsb (m : sequenceDetector) (inp : list byte) (i : nat) : bool :=
  match inp !! i, feed m (take i inp) with
  | Some b, Ret mi =>
      match writeByte mi b with
      | Ret (true, _) => true
      | _ => false
      end
  | _, _ => false
  end.

(** The pairs that [write] inserts for the chunk [inp]: for every position
    of the chunk, in order, and every detector, in order, that reports a
    match there, the offset of the match and the length of the pattern. *)
Definition reported_pairs (cur : Z) (ms : list sequenceDetector)
    (inp : list byte) : list (Z * Z) :=
  i ← seq 0 (length inp);
  m ← ms;
  if reportsb m inp i
  then [(matchIndex cur i m, Z.of_nat (length (sequence m)))]
  else [].

(** [add] of every pair of a list, in order, into an empty table. *)
Definition insert_all (ps : list (Z * Z)) : gmap Z Z :=
  foldl (fun t p => add t p.1 p.2) ∅ ps.

(** [t] holds the longest of the matches [E] at every offset, and nothing
    else. *)
Definition table_of (t : gmap Z Z) (E : Z → Z → Prop) : Prop :=
  (∀ o l, t !! o = Some l → E o l) ∧
  (∀ o l, E o l → ∃ l', t !! o = Some l' ∧ l <= l').

(** An occurrence of the pattern [p] in [inp] ends at the byte at position
    [i]: [p] is a suffix of the first [i + 1] bytes of [inp]. *)
Definition occurs_at (p inp : list byte) (i : nat) : Prop :=
  (i < length inp)%nat ∧ p `suffix_of` take (S i) inp.

(** The first byte of [p] is nowhere else in [p]. *)
Definition first_byte_unique (p : list byte) : Prop :=
  ∀ o b, (1 ≤ o)%nat → p !! o = Some b → p !! 0%nat ≠ Some b.

(** The cursor [c] is the length of the longest proper prefix of [p] that
    the bytes [s] end with. *)
Definition tracks (p s : list byte) (c : nat) : Prop :=
  (c < length p)%nat ∧ take c p `suffix_of` s ∧
  ∀ k, (c < k < length p)%nat → ¬ take k p `suffix_of` s.

(** The number of bytes in a list of chunks. *)
Definition total_length (chunks : list (list byte)) : nat :=
  foldr (fun c n => (length c + n)%nat) 0%nat chunks.

(** * The rm command

    [RmCommand.Run] and its helpers talk to the secret store, to the
    terminal and to the path library.  The path functions are pure and are
    taken as a record of functions ([paths]); the answers of the store and
    of the terminal are taken as a record of answers ([world]); what the
    command does to them is the list of [event]s it returns, in order,
    beside its error.  Paths are Go strings. *)

Inductive error : Type :=
  | ErrCannotRemoveDir
  | ErrCannotRemoveRootDir
  | ErrCannotDoWithoutForce
  | ErrResourceNotFound (path : string)
  | ErrDirNotFound
  | ErrSecretNotFound
  | ErrCannotAsk
  | ErrOther (msg : string).

#[global] Instance error_eq_decision : EqDecision error.
Proof. solve_decision. Defined.

Inductive result (A : Type) : Type :=
  | Ok (a : A)
  | Err (e : error).
Arguments Ok {A} a.
Arguments Err {A} e.

#[global] Instance result_eq_decision `{EqDecision A} :
  EqDecision (result A).
Proof. solve_decision. Defined.

(** The methods of [api.Path], [api.DirPath] and [api.SecretPath] that
    the command calls. *)
Record paths : Type := Paths {
  HasVersion : string → bool;
  ToDirPath : string → result string;
  ToSecretPath : string → result string;
  IsRepoPath : string → bool;
  DirValue : string → string;
  DirString : string → string;
  GetDirName : string → string;
  SecretValue : string → string;
  SecretString : string → string;
  GetSecret : string → string;
  GetVersion : string → result string
}.

(** The answers of [newClient], of the client's calls and of
    [ui.ConfirmCaseInsensitive]; [None] is a nil error. *)
Record world : Type := World {
  newClient : option error;
  getTree : string → option error;
  secretsGet : string → option error;
  confirm : string → list string → result bool;
  deleteDir : string → option error;
  deleteSecret : string → option error;
  deleteVersion : string → option error
}.

Inductive event : Type :=
  | NewClient
  | GetTree (dir : string) (depth : Z) (ancestors : bool)
  | SecretsGet (secret : string)
  | Ask (question : string) (expected : list string)
  | DeleteDir (dir : string)
  | DeleteSecret (secret : string)
  | DeleteVersion (secret : string)
  | Print (text : string).

Record RmCommand : Type := {
  path : string;
  recursive : bool;
  force : bool
}.

Definition newline : string := String (Ascii.ascii_of_nat 10) EmptyString.

(** [func askRmConfirmation(io ui.IO, confirmationText string, force bool,
    expected ...string) (bool, error)] *)
Definition askRmConfirmation (w : world) (confirmationText : string)
    (force : bool) (expected : list string) : list event * result bool :=
  if force then ([], Ok true)
  else
    let question :=
      "[WARNING] This action cannot be undone. " +:+ confirmationText in
    match confirm w question expected with
    | Err err =>
        if decide (err = ErrCannotAsk)
        then ([Ask question expected], Err ErrCannotDoWithoutForce)
        else ([Ask question expected], Err err)
    | Ok confirmed =>
        if negb confirmed
        then ([Ask question expected;
               Print ("Name does not match. Aborting." +:+ newline)],
              Ok false)
        else ([Ask question expected], Ok true)
    end.

(** [func rmSecretVersion(client, secretPath, force, io) error] *)
Definition rmSecretVersion (P : paths) (w : world) (secretPath : string)
    (force : bool) : list event * option error :=
  match GetVersion P secretPath with
  | Err err => ([], Some err)
  | Ok version =>
      let '(log, ok) :=
        askRmConfirmation w
          ("This will permanently remove the " +:+ SecretString P secretPath
           +:+ " secret version. "
           +:+ "Please type in the name of the secret and the version (<name>:<version>) to confirm")
          force
          [GetSecret P secretPath +:+ ":" +:+ version;
           SecretString P secretPath] in
      match ok with
      | Err err => (log, Some err)
      | Ok false => (log, None)
      | Ok true =>
          let log' := log ++ [DeleteVersion (SecretValue P secretPath)] in
          match deleteVersion w (SecretValue P secretPath) with
          | Some err => (log', Some err)
          | None =>
              (log' ++
               [Print ("Removal complete! The secret version "
                       +:+ SecretString P secretPath
                       +:+ " has been permanently removed." +:+ newline)],
               None)
          end
      end
  end.

(** [func rmSecret(client, secretPath, force, io) error] *)
Definition rmSecret (P : paths) (w : world) (secretPath : string)
    (force : bool) : list event * option error :=
  let '(log, ok) :=
    askRmConfirmation w
      ("This will permanently remove the " +:+ SecretString P secretPath
       +:+ " secret and all its versions. "
       +:+ "Please type in the name of the secret to confirm")
      force
      [GetSecret P secretPath; SecretString P secretPath] in
  match ok with
  | Err err => (log, Some err)
  | Ok false => (log, None)
  | Ok true =>
      let log' := log ++ [DeleteSecret (SecretValue P secretPath)] in
      match deleteSecret w (SecretValue P secretPath) with
      | Some err => (log', Some err)
      | None =>
          (log' ++
           [Print ("Removal complete! The secret "
                   +:+ SecretString P secretPath
                   +:+ " has been permanently removed." +:+ newline)],
           None)
      end
  end.

(** [func rmDir(client, dirPath, force, io) error] *)
Definition rmDir (P : paths) (w : world) (dirPath : string)
    (force : bool) : list event * option error :=
  let '(log, ok) :=
    askRmConfirmation w
      ("This will permanently remove the " +:+ DirString P dirPath
       +:+ " directory and all the directories and secrets it contains. "
       +:+ "Please type in the name of the directory to confirm")
      force
      [GetDirName P dirPath; DirString P dirPath] in
  match ok with
  | Err err => (log, Some err)
  | Ok false => (log, None)
  | Ok true =>
      let log' := log ++ [DeleteDir (DirValue P dirPath)] in
      match deleteDir w (DirValue P dirPath) with
      | Some err => (log', Some err)
      | None =>
          (log' ++
           [Print ("Removal complete! The directory "
                   +:+ DirString P dirPath
                   +:+ " has been permanently removed." +:+ newline)],
           None)
      end
  end.

(** The second half of [Run], from [secretPath, err :=
    cmd.path.ToSecretPath()] on, after the events [log]. *)
Definition Run_secret (P : paths) (w : world) (cmd : RmCommand)
    (log : list event) : list event * option error :=
  match ToSecretPath P (path cmd) with
  | Err err => (log, Some err)
  | Ok secretPath =>
      if HasVersion P (path cmd) then
        let '(l, err) := rmSecretVersion P w secretPath (force cmd) in
        (log ++ l, err)
      else
        let log' := log ++ [SecretsGet (SecretValue P secretPath)] in
        if decide (secretsGet w (SecretValue P secretPath)
                   = Some ErrSecretNotFound)
        then (log', Some (ErrResourceNotFound (path cmd)))
        else
          let '(l, err) := rmSecret P w secretPath (force cmd) in
          (log' ++ l, err)
  end.

(** [func (cmd *RmCommand) Run() error] *)
Definition Run (P : paths) (w : world) (cmd : RmCommand)
  : list event * option error :=
  match newClient w with
  | Some err => ([NewClient], Some err)
  | None =>
      if negb (HasVersion P (path cmd)) then
        match ToDirPath P (path cmd) with
        | Err err => ([NewClient], Some err)
        | Ok dirPath =>
            if IsRepoPath P dirPath
            then ([NewClient], Some ErrCannotRemoveRootDir)
            else
              let log :=
                [NewClient; GetTree (DirValue P dirPath) (-1) false] in
              match getTree w (DirValue P dirPath) with
              | None =>
                  if negb (recursive cmd)
                  then (log, Some ErrCannotRemoveDir)
                  else
                    let '(l, err) := rmDir P w dirPath (force cmd) in
                    (log ++ l, err)
              | Some err =>
                  if decide (err ≠ ErrDirNotFound) then (log, Some err)
                  else Run_secret P w cmd log
              end
        end
      else Run_secret P w cmd [NewClient]
  end.

(** The calls that remove something from the store, and the store's
    answer to one. *)
Definition is_delete (e : event) : bool :=
  match e with
  | DeleteDir _ | DeleteSecret _ | DeleteVersion _ => true
  | _ => false
  end.

Definition delete_answer (w : world) (e : event) : option error :=
  match e with
  | DeleteDir p => deleteDir w p
  | DeleteSecret p => deleteSecret w p
  | DeleteVersion p => deleteVersion w p
  | _ => None
  end.

Definition is_ask (e : event) : bool :=
  match e with
  | Ask _ _ => true
  | _ => false
  end.

(** Reading a log from the left with the consent gathered so far: every
    removal comes with consent, which is the force flag or a confirmation
    that the terminal answered with true before it. *)
Fixpoint consented (w : world) (consent : bool) (log : list event) : bool :=
  match log with
  | [] => true
  | Ask question expected :: log' =>
      consented w
        (consent || bool_decide (confirm w question expected = Ok true)) log'
  | e :: log' =>
      (if is_delete e then consent else true) && consented w consent log'
  end.

#[global] Instance event_eq_decision : EqDecision event.
Proof. solve_decision. Defined.

(** A path library and two stores to run the command on: every path is a
    directory, secret and version path of itself, [repo] is a repository
    root, and a path has a version when it contains a colon.  The first
    store holds every directory and the terminal confirms; the second
    holds no directory, cannot tell whether a secret exists
    and the terminal declines. *)
Definition example_paths : paths :=
  Paths (fun p => if String.index 0 ":" p is Some _ then true else false)
        Ok Ok (fun p => bool_decide (p = "repo"))
        id id id id id id (fun _ => Ok "1").

Definition store_with_dirs : world :=
  World None (fun _ => None) (fun _ => None) (fun _ _ => Ok true)
        (fun _ => None) (fun _ => None) (fun _ => None).

Definition store_without_dirs : world :=
  World None (fun _ => Some ErrDirNotFound)
        (fun _ => Some (ErrOther "connection reset"))
        (fun _ _ => Ok false)
        (fun _ => None) (fun _ => Some (ErrOther "forbidden"))
        (fun _ => None).

(** ** 64-bit arithmetic *)

Lemma wrap64_range z : int64_range (wrap64 z).
Proof.
  unfold int64_range, wrap64.
  pose proof (Z.mod_pos_bound (z + 2 ^ 63) (2 ^ 64)). lia.
Qed.

Lemma wrap64_id z : int64_range z → wrap64 z = z.
Proof.
  unfold int64_range, wrap64. intros H.
  rewrite Z.mod_small; lia.
Qed.

Lemma add64_wrap_l a b : add64 (wrap64 a) b = add64 a b.
Proof.
  unfold add64, wrap64.
  replace ((a + 2 ^ 63) mod 2 ^ 64 - 2 ^ 63 + b + 2 ^ 63)
    with ((a + 2 ^ 63) mod 2 ^ 64 + b) by lia.
  rewrite Zplus_mod_idemp_l. do 2 f_equal. lia.
Qed.

Lemma add64_assoc a b c : add64 (add64 a b) c = add64 a (b + c).
Proof.
  unfold add64 at 2. rewrite add64_wrap_l. unfold add64. f_equal. lia.
Qed.

Lemma add64_0_r a : int64_range a → add64 a 0 = a.
Proof. intros H. unfold add64. rewrite Z.add_0_r. by apply wrap64_id. Qed.

(** ** The match table *)

Lemma lookup_add (t : gmap Z Z) i l j :
  add t i l !! j =
    if decide (i = j)
    then Some (match t !! i with Some e => Z.max e l | None => l end)
    else t !! j.
Proof.
  unfold add. destruct (t !! i) as [e|] eqn:Hi.
  - case_bool_decide; case_decide; simplify_map_eq; f_equal; lia.
  - case_decide; by simplify_map_eq.
Qed.

Lemma add_longest (t : gmap Z Z) i l : add t i l = longest t {[i := l]}.
Proof.
  apply map_eq. intros j. rewrite lookup_add. unfold longest.
  rewrite lookup_union_with. case_decide.
  - subst. rewrite lookup_singleton_eq. by destruct (t !! j).
  - rewrite lookup_singleton_ne by done. by destruct (t !! j).
Qed.

Lemma longest_assoc (t1 t2 t3 : gmap Z Z) :
  longest t1 (longest t2 t3) = longest (longest t1 t2) t3.
Proof.
  apply map_eq. intros j. unfold longest. rewrite !lookup_union_with.
  destruct (t1 !! j), (t2 !! j), (t3 !! j); simpl; f_equal; lia.
Qed.

Lemma longest_empty_r (t : gmap Z Z) : longest t ∅ = t.
Proof.
  apply map_eq. intros j. unfold longest. rewrite lookup_union_with.
  rewrite lookup_empty. by destruct (t !! j).
Qed.

Lemma longest_empty_l (t : gmap Z Z) : longest ∅ t = t.
Proof.
  apply map_eq. intros j. unfold longest. rewrite lookup_union_with.
  rewrite lookup_empty. by destruct (t !! j).
Qed.

Lemma elem_of_pairs (t : gmap Z Z) o l : (o, l) ∈ pairs t ↔ t !! o = Some l.
Proof.
  unfold pairs. rewrite elem_of_list_to_set. apply elem_of_map_to_list.
Qed.

(** ** findShift *)

Lemma index_Ret s i b : index s i = Ret b ↔ s !! i = Some b.
Proof. unfold index. destruct (s !! i); naive_solver. Qed.

Lemma findShift_inner_Ret s offset i n :
  (i + offset + n ≤ length s)%nat →
  findShift_inner s offset i n =
    Ret (bool_decide (take n (drop i s) = take n (drop (i + offset) s))).
Proof.
  revert i. induction n as [|n IH]; intros i Hlen; simpl.
  - done.
  - destruct (lookup_lt_is_Some_2 s i) as [a Ha]; [lia|].
    destruct (lookup_lt_is_Some_2 s (i + offset)) as [b Hb]; [lia|].
    unfold index. rewrite Ha, Hb. simpl.
    rewrite (drop_S _ _ _ Ha), (drop_S _ _ _ Hb). simpl.
    case_decide as Hab.
    + rewrite bool_decide_eq_false_2; [done|]. congruence.
    + subst b.
      rewrite IH by lia. f_equal. apply bool_decide_ext.
      replace (S i + offset)%nat with (S (i + offset)) by lia.
      split; [by intros ->|by intros [=]].
Qed.

Lemma findShift_inner_overlap s cursor offset :
  (offset ≤ cursor ≤ length s)%nat →
  findShift_inner s offset 0 (cursor - offset) =
    Ret (bool_decide (overlap s cursor offset)).
Proof.
  intros H. rewrite findShift_inner_Ret by lia.
  f_equal. apply bool_decide_ext. unfold overlap, slice.
  rewrite drop_0, Nat.sub_0_r. done.
Qed.

Lemma overlap_self s cursor : overlap s cursor cursor.
Proof. unfold overlap, slice. by rewrite !Nat.sub_diag. Qed.

Lemma findShift_loop_Some s cursor offset n :
  (cursor ≤ length s)%nat → (offset + n = S cursor)%nat →
  (1 ≤ offset ≤ cursor)%nat →
  ∃ o, findShift_loop s cursor offset n = Ret (Some o) ∧
       (offset ≤ o ≤ cursor)%nat ∧ overlap s cursor o ∧
       ∀ o', (offset ≤ o' < o)%nat → ¬ overlap s cursor o'.
Proof.
  revert offset. induction n as [|n IH]; intros offset Hlen Hn Ho; [lia|].
  simpl. rewrite findShift_inner_overlap by lia. simpl.
  case_bool_decide as Hov.
  - exists offset. split_and!; [done|lia|lia|done|]. intros; lia.
  - destruct (decide (offset = cursor)) as [->|Hne].
    { destruct Hov. apply overlap_self. }
    destruct (IH (S offset)) as (o & -> & Hr & Hoo & Hmin); [done|lia|lia|].
    exists o. split_and!; [done|lia|lia|done|].
    intros o' Ho'. destruct (decide (o' = offset)) as [->|]; [done|].
    apply Hmin. lia.
Qed.

Lemma findShift_loop_None s cursor n offset :
  (offset + n = S cursor)%nat →
  findShift_loop s cursor offset n = Ret None → n = 0%nat.
Proof.
  revert offset. induction n as [|n IH]; intros offset Hn; [done|].
  simpl. destruct (findShift_inner s offset 0 (cursor - offset)) as [[]| |] eqn:Hin;
    simpl; try done.
  intros Hloop. destruct (decide (offset = cursor)) as [->|Hne].
  - rewrite Nat.sub_diag in Hin. simpl in Hin. done.
  - apply IH in Hloop; lia.
Qed.

Lemma findShift_loop_le s cursor n offset r :
  (offset + n = S cursor)%nat →
  findShift_loop s cursor offset n = Ret (Some r) → (offset ≤ r ≤ cursor)%nat.
Proof.
  revert offset. induction n as [|n IH]; intros offset Hn; [done|].
  simpl. destruct (findShift_inner s offset 0 (cursor - offset)) as [[]| |];
    simpl; try done.
  - intros [= <-]. lia.
  - intros Hloop. apply IH in Hloop; lia.
Qed.

(** The shift never exceeds the cursor, whatever the detector's state. *)
Lemma findShift_le m s : findShift m = Ret s → (s ≤ currentIndex m)%nat.
Proof.
  unfold findShift.
  destruct (findShift_loop _ _ _ _) as [[r|]| |] eqn:Hloop; simpl; try done.
  - intros [= <-]. apply findShift_loop_le in Hloop; lia.
  - intros [= <-]. done.
Qed.

Lemma findShift_Ret m :
  (currentIndex m ≤ length (sequence m))%nat →
  ∃ s, findShift m = Ret s ∧ (s ≤ currentIndex m)%nat ∧
       ((1 ≤ currentIndex m)%nat →
        (1 ≤ s)%nat ∧ overlap (sequence m) (currentIndex m) s ∧
        ∀ o, (1 ≤ o < s)%nat → ¬ overlap (sequence m) (currentIndex m) o).
Proof.
  intros Hlen. unfold findShift.
  destruct (decide (currentIndex m = 0)%nat) as [Hz|Hnz].
  - rewrite Hz. simpl. exists 0%nat. split_and!; [done|lia|lia].
  - destruct (findShift_loop_Some (sequence m) (currentIndex m) 1
                (currentIndex m)) as (o & -> & Hr & Hov & Hmin); [lia..|].
    simpl. exists o. split_and!; [done|lia|]. intros _. split_and!; [lia|done..].
Qed.

Lemma shiftCursor_Ret m :
  (currentIndex m ≤ length (sequence m))%nat →
  ∃ m1, shiftCursor m = Ret m1 ∧ sequence m1 = sequence m ∧
        (currentIndex m1 ≤ currentIndex m)%nat ∧
        ((1 ≤ currentIndex m)%nat → (currentIndex m1 < currentIndex m)%nat).
Proof.
  intros Hlen. destruct (findShift_Ret m Hlen) as (s & Hs & Hle & Hpos).
  unfold shiftCursor. rewrite Hs. simpl. eexists. split; [done|]. simpl.
  split_and!; [done|lia|]. intros H1. destruct (Hpos H1). lia.
Qed.

(** ** writeByte *)

Lemma writeByte_rec_hit fuel m b :
  sequence m !! currentIndex m = Some b →
  writeByte_rec (S fuel) m b = Ret (advance m).
Proof.
  intros Hb. simpl. unfold index. rewrite Hb. simpl.
  rewrite decide_True by done. unfold advance. simpl. by case_decide.
Qed.

Lemma writeByte_rec_S fuel m b :
  writeByte_rec (S fuel) m b =
    c ← index (sequence m) (currentIndex m);
    if decide (c = b) then
      let m1 := SequenceDetector (sequence m) (S (currentIndex m)) in
      if decide (currentIndex m1 = length (sequence m1)) then
        Ret (true, SequenceDetector (sequence m1) 0)
      else Ret (false, m1)
    else
      m1 ← shiftCursor m;
      c' ← index (sequence m1) (currentIndex m1);
      if decide (c' = b) then writeByte_rec fuel m1 b
      else Ret (false, m1).
Proof. done. Qed.

(** A call depth of two is enough in every state of the detector: the
    nested call is only made on a byte that the shifted cursor expects. *)
Lemma writeByte_rec_fuel fuel m b :
  (2 ≤ fuel)%nat → writeByte_rec fuel m b = writeByte_rec 2 m b.
Proof.
  intros Hfuel. destruct fuel as [|[|fuel]]; [lia..|].
  rewrite (writeByte_rec_S (S fuel) m b), (writeByte_rec_S 1 m b).
  destruct (index (sequence m) (currentIndex m)) as [c| |]; bind; [|done..].
  case_decide; [done|].
  destruct (shiftCursor m) as [m1| |]; bind; [|done..].
  destruct (index (sequence m1) (currentIndex m1)) as [c'| |] eqn:Hc';
    bind; [|done..].
  case_decide as Heq; [|done]. subst c'. apply index_Ret in Hc'.
  by rewrite !writeByte_rec_hit.
Qed.

Lemma index_fuel s i : index s i ≠ OutOfFuel.
Proof. unfold index. by destruct (s !! i). Qed.

Lemma findShift_inner_fuel s offset i n :
  findShift_inner s offset i n ≠ OutOfFuel.
Proof.
  revert i. induction n as [|n IH]; intros i; simpl; [done|].
  unfold index. destruct (s !! i); [|done]. bind.
  destruct (s !! (i + offset)%nat); [|done]. bind.
  by case_decide.
Qed.

Lemma findShift_loop_fuel s cursor offset n :
  findShift_loop s cursor offset n ≠ OutOfFuel.
Proof.
  revert offset. induction n as [|n IH]; intros offset; simpl; [done|].
  pose proof (findShift_inner_fuel s offset 0 (cursor - offset)).
  destruct (findShift_inner _ _ _ _) as [[]| |]; by bind.
Qed.

Lemma shiftCursor_fuel m : shiftCursor m ≠ OutOfFuel.
Proof.
  unfold shiftCursor, findShift.
  pose proof (findShift_loop_fuel (sequence m) (currentIndex m) 1
                (currentIndex m)).
  by destruct (findShift_loop _ _ _ _) as [[]| |].
Qed.

Lemma writeByte_never_out_of_fuel m b : writeByte m b ≠ OutOfFuel.
Proof.
  unfold writeByte. rewrite writeByte_rec_S.
  pose proof (index_fuel (sequence m) (currentIndex m)).
  destruct (index (sequence m) (currentIndex m)) as [c| |]; bind; [|done..].
  case_decide; [by case_decide|].
  pose proof (shiftCursor_fuel m).
  destruct (shiftCursor m) as [m1| |]; bind; [|done..].
  pose proof (index_fuel (sequence m1) (currentIndex m1)).
  destruct (index (sequence m1) (currentIndex m1)) as [c'| |] eqn:Hc';
    bind; [|done..].
  case_decide as Heq; [|done]. subst c'. apply index_Ret in Hc'.
  by rewrite writeByte_rec_hit.
Qed.

Lemma advance_ok m :
  detector_ok m →
  sequence (advance m).2 = sequence m ∧ detector_ok (advance m).2 ∧
  (currentIndex (advance m).2 ≤ S (currentIndex m))%nat.
Proof.
  unfold detector_ok, advance. intros H.
  case_decide; simpl; split_and!; auto with lia.
Qed.

Lemma writeByte_hit m b :
  sequence m !! currentIndex m = Some b → writeByte m b = Ret (advance m).
Proof. apply writeByte_rec_hit. Qed.

Lemma writeByte_miss m b c :
  sequence m !! currentIndex m = Some c → c ≠ b →
  writeByte m b =
    m1 ← shiftCursor m;
    c' ← index (sequence m1) (currentIndex m1);
    if decide (c' = b) then Ret (advance m1) else Ret (false, m1).
Proof.
  intros Hc Hne. unfold writeByte. rewrite writeByte_rec_S.
  rewrite (proj2 (index_Ret _ _ _) Hc). bind. rewrite decide_False by done.
  destruct (shiftCursor m) as [m1| |]; bind; [|done..].
  destruct (index (sequence m1) (currentIndex m1)) as [c'| |] eqn:Hc';
    bind; [|done..].
  case_decide as Heq; [|done]. subst c'. apply index_Ret in Hc'.
  by rewrite writeByte_rec_hit.
Qed.

Lemma writeByte_Ret m b :
  detector_ok m →
  ∃ r m', writeByte m b = Ret (r, m') ∧ sequence m' = sequence m ∧
          detector_ok m' ∧ (currentIndex m' ≤ S (currentIndex m))%nat.
Proof.
  intros Hok. pose proof Hok as Hlt. unfold detector_ok in Hlt.
  destruct (lookup_lt_is_Some_2 _ _ Hlt) as [c Hc].
  destruct (decide (c = b)) as [->|Hne].
  - rewrite (writeByte_hit _ _ Hc). destruct (advance_ok m Hok) as (?&?&?).
    destruct (advance m) as [r m']. by exists r, m'.
  - rewrite (writeByte_miss _ _ _ Hc Hne).
    destruct (shiftCursor_Ret m) as (m1 & -> & Hseq & Hle & _); [lia|].
    simpl. assert (detector_ok m1) as Hok1.
    { unfold detector_ok. rewrite Hseq. lia. }
    destruct (lookup_lt_is_Some_2 _ _ Hok1) as [c' Hc'].
    unfold index. rewrite Hc'. simpl. case_decide.
    + destruct (advance_ok m1 Hok1) as (?&?&?).
      destruct (advance m1) as [r m']. exists r, m'.
      simpl in *. split_and!; [done|congruence|done|lia].
    + exists false, m1. split_and!; [done..|lia].
Qed.

Lemma writeByte_sequence m b r m' :
  writeByte m b = Ret (r, m') → sequence m' = sequence m.
Proof.
  unfold writeByte. rewrite writeByte_rec_S.
  destruct (index (sequence m) (currentIndex m)) as [c| |]; bind; [|done..].
  case_decide.
  { simpl. case_decide; by intros [= <- <-]. }
  unfold shiftCursor. destruct (findShift m) as [s| |]; bind; [|done..].
  destruct (index _ _) as [c'| |] eqn:Hc'; bind; [|done..].
  case_decide as Heq; [|by intros [= <- <-]].
  subst c'. apply index_Ret in Hc'. rewrite writeByte_rec_hit by done.
  unfold advance. case_decide; by intros [= <- <-].
Qed.

(** ** write: the table already built is only merged into *)

Lemma write_matchers_longest cur i b ms res :
  write_matchers cur i b ms res =
    '(t, ms') ← write_matchers cur i b ms ∅; Ret (longest res t, ms').
Proof.
  revert res. induction ms as [|m ms IH]; intros res; simpl.
  - by rewrite longest_empty_r.
  - destruct (writeByte m b) as [[matched m']| |]; bind; [|done..].
    rewrite IH. symmetry. rewrite IH.
    destruct (write_matchers cur i b ms ∅) as [[t ms']| |]; bind; [|done..].
    do 2 f_equal. destruct matched.
    + by rewrite !add_longest, longest_empty_l, longest_assoc.
    + by rewrite longest_empty_l.
Qed.

Lemma write_loop_longest cur i inp ms res :
  write_loop cur i inp ms res =
    '(t, ms') ← write_loop cur i inp ms ∅; Ret (longest res t, ms').
Proof.
  revert i ms res. induction inp as [|b inp IH]; intros i ms res; simpl.
  - by rewrite longest_empty_r.
  - rewrite write_matchers_longest.
    destruct (write_matchers cur i b ms ∅) as [[t1 ms1]| |]; bind; [|done..].
    rewrite IH. symmetry. rewrite IH.
    destruct (write_loop cur (S i) inp ms1 ∅) as [[t2 ms2]| |]; bind;
      [|done..].
    by rewrite longest_assoc.
Qed.

Lemma write_loop_app cur i inp1 inp2 ms res :
  write_loop cur i (inp1 ++ inp2) ms res =
    '(t, ms') ← write_loop cur i inp1 ms res;
    write_loop cur (i + length inp1) inp2 ms' t.
Proof.
  revert i ms res. induction inp1 as [|b inp1 IH]; intros i ms res; simpl.
  - by rewrite Nat.add_0_r.
  - destruct (write_matchers cur i b ms res) as [[t1 ms1]| |]; bind;
      [|done..].
    rewrite IH. by replace (S i + length inp1)%nat with (i + S (length inp1))%nat by lia.
Qed.

Lemma matchIndex_shift cur i k m :
  matchIndex cur (i + k) m = matchIndex (add64 cur (Z.of_nat k)) i m.
Proof. unfold matchIndex. rewrite add64_assoc. f_equal. lia. Qed.

Lemma write_matchers_shift cur i k b ms res :
  write_matchers cur (i + k) b ms res =
    write_matchers (add64 cur (Z.of_nat k)) i b ms res.
Proof.
  revert res. induction ms as [|m ms IH]; intros res; simpl; [done|].
  destruct (writeByte m b) as [[matched m']| |]; bind; [|done..].
  by rewrite matchIndex_shift, IH.
Qed.

Lemma write_loop_shift cur i k inp ms res :
  write_loop cur (i + k) inp ms res =
    write_loop (add64 cur (Z.of_nat k)) i inp ms res.
Proof.
  revert i ms res. induction inp as [|b inp IH]; intros i ms res; simpl;
    [done|].
  rewrite write_matchers_shift.
  destruct (write_matchers _ i b ms res) as [[t1 ms1]| |]; bind; [|done..].
  apply (IH (S i)).
Qed.

(** Writing two chunks one after the other is writing their concatenation,
    with the two tables merged. *)
Lemma write_app mb inp1 inp2 :
  write mb (inp1 ++ inp2) =
    '(t1, mb1) ← write mb inp1;
    '(t2, mb2) ← write mb1 inp2;
    Ret (longest t1 t2, mb2).
Proof.
  unfold write. rewrite write_loop_app.
  destruct (write_loop _ 0 inp1 _ ∅) as [[t1 ms1]| |]; bind; [|done..].
  rewrite write_loop_longest, (write_loop_shift _ 0). simpl.
  destruct (write_loop _ 0 inp2 ms1 ∅) as [[t2 ms2]| |]; bind; [|done..].
  rewrite add64_assoc, length_app, Nat2Z.inj_add. done.
Qed.

Lemma write_nil mb :
  int64_range (matcher_currentIndex mb) → write mb [] = Ret (∅, mb).
Proof.
  intros Hr. unfold write. simpl. rewrite add64_0_r by done. by destruct mb.
Qed.

Lemma write_int64_range mb inp t mb' :
  write mb inp = Ret (t, mb') → int64_range (matcher_currentIndex mb').
Proof.
  unfold write. destruct (write_loop _ _ _ _ _) as [[??]| |]; bind; [|done..].
  intros [= <- <-]. apply wrap64_range.
Qed.

Lemma writes_concat mb chunks ts mb' :
  int64_range (matcher_currentIndex mb) →
  writes mb chunks = Ret (ts, mb') →
  write mb (concat chunks) = Ret (foldr longest ∅ ts, mb').
Proof.
  revert mb ts. induction chunks as [|c chunks IH]; intros mb ts Hr; simpl.
  - intros [= <- <-]. by apply write_nil.
  - rewrite write_app.
    destruct (write mb c) as [[t1 mb1]| |] eqn:Hw; bind; [|done..].
    destruct (writes mb1 chunks) as [[ts1 mb2]| |] eqn:Hws; bind; [|done..].
    intros [= <- <-]. rewrite (IH mb1 ts1); [done| |done].
    by eapply write_int64_range.
Qed.

Lemma lookup_foldr_longest_None (ts : list (gmap Z Z)) o :
  foldr longest ∅ ts !! o = None ↔ ∀ t, t ∈ ts → t !! o = None.
Proof.
  induction ts as [|t ts IH]; simpl.
  - rewrite lookup_empty. split; [|done]. intros _ t Ht.
    by apply elem_of_nil in Ht.
  - unfold longest at 1. rewrite lookup_union_with. split.
    + intros Hn t' [->|Hin]%elem_of_cons.
      * by destruct (t !! o), (foldr longest ∅ ts !! o).
      * apply IH; [|done]. by destruct (t !! o), (foldr longest ∅ ts !! o).
    + intros Hall. rewrite (Hall t) by in_list.
      rewrite (proj2 IH); [done|]. intros t' Ht'. apply Hall. in_list.
Qed.

Lemma lookup_foldr_longest (ts : list (gmap Z Z)) o l :
  foldr longest ∅ ts !! o = Some l ↔
    (∃ t, t ∈ ts ∧ t !! o = Some l) ∧
    (∀ t l', t ∈ ts → t !! o = Some l' → l' <= l).
Proof.
  revert l. induction ts as [|t ts IH]; intros l; simpl.
  - rewrite lookup_empty. split; [done|]. intros [(t & Ht & _) _].
    by apply elem_of_nil in Ht.
  - unfold longest at 1. rewrite lookup_union_with.
    destruct (foldr longest ∅ ts !! o) as [c|] eqn:Hc.
    + pose proof (proj1 (IH c) eq_refl) as [(t' & Ht' & Hl') Hmax].
      destruct (t !! o) as [a|] eqn:Ha; simpl.
      * split.
        -- intros [= <-]. split.
           ++ destruct (Z.max_spec a c) as [[_ ->]|[_ ->]];
                [exists t'|exists t]; split; in_list.
           ++ intros t0 l0 [->|Hin]%elem_of_cons Hl0.
              ** simplify_eq. lia.
              ** specialize (Hmax _ _ Hin Hl0). lia.
        -- intros [(t0 & Hin & Hl0) Hmax']. f_equal.
           assert (a <= l) by (apply (Hmax' t); [in_list|done]).
           assert (c <= l) by (apply (Hmax' t'); [in_list|done]).
           apply elem_of_cons in Hin as [->|Hin]; [simplify_eq; lia|].
           specialize (Hmax _ _ Hin Hl0). lia.
      * split.
        -- intros [= <-]. split; [exists t'; in_list|].
           intros t0 l0 [->|Hin]%elem_of_cons Hl0; [congruence|eauto].
        -- intros [(t0 & Hin & Hl0) Hmax']. f_equal.
           assert (c <= l) by (apply (Hmax' t'); [in_list|done]).
           apply elem_of_cons in Hin as [->|Hin]; [congruence|].
           specialize (Hmax _ _ Hin Hl0). lia.
    + pose proof (proj1 (lookup_foldr_longest_None ts o) Hc) as Hnone.
      destruct (t !! o) as [a|] eqn:Ha; simpl.
      * split.
        -- intros [= <-]. split; [exists t; in_list|].
           intros t0 l0 [->|Hin]%elem_of_cons Hl0; [simplify_eq; lia|].
           rewrite (Hnone _ Hin) in Hl0. done.
        -- intros [(t0 & Hin & Hl0) _].
           apply elem_of_cons in Hin as [->|Hin]; [congruence|].
           rewrite (Hnone _ Hin) in Hl0. done.
      * split; [done|]. intros [(t0 & Hin & Hl0) _].
        apply elem_of_cons in Hin as [->|Hin]; [congruence|].
        rewrite (Hnone _ Hin) in Hl0. done.
Qed.

Lemma elem_of_pairs_union ts o l :
  (o, l) ∈ pairs_union ts ↔ ∃ t, t ∈ ts ∧ t !! o = Some l.
Proof.
  unfold pairs_union. rewrite elem_of_union_list. split.
  - intros (X & HX & Hin). apply list_elem_of_fmap in HX as (t & -> & Ht).
    exists t. split; [done|]. by apply elem_of_pairs.
  - intros (t & Ht & Hl). exists (pairs t). split.
    + apply list_elem_of_fmap. eauto.
    + by apply elem_of_pairs.
Qed.

(** ** Tables as sets of matches *)

Lemma table_of_empty : table_of ∅ (fun _ _ => False).
Proof. split; [by intros o l; rewrite lookup_empty|by intros o l []]. Qed.

Lemma table_of_singleton k L :
  table_of {[k := L]} (fun o l => o = k ∧ l = L).
Proof.
  split.
  - intros o l [-> ->]%lookup_singleton_Some. done.
  - intros o l [-> ->]. exists L. by rewrite lookup_singleton_eq.
Qed.

Lemma table_of_longest t1 t2 E1 E2 :
  table_of t1 E1 → table_of t2 E2 →
  table_of (longest t1 t2) (fun o l => E1 o l ∨ E2 o l).
Proof.
  intros [Hs1 Hc1] [Hs2 Hc2]. split.
  - intros o l. unfold longest. rewrite lookup_union_with.
    destruct (t1 !! o) as [a|] eqn:Ha; destruct (t2 !! o) as [c|] eqn:Hc;
      simpl; intros [= <-]; auto.
    destruct (Z.max_spec a c) as [[_ ->]|[_ ->]]; auto.
  - intros o l [H|H].
    + destruct (Hc1 _ _ H) as (l' & Hl' & Hle). unfold longest.
      rewrite lookup_union_with, Hl'. destruct (t2 !! o) as [c|]; simpl.
      * exists (Z.max l' c). split; [done|lia].
      * by exists l'.
    + destruct (Hc2 _ _ H) as (l' & Hl' & Hle). unfold longest.
      rewrite lookup_union_with, Hl'. destruct (t1 !! o) as [a|]; simpl.
      * exists (Z.max a l'). split; [done|lia].
      * by exists l'.
Qed.

Lemma table_of_ext t (E E' : Z → Z → Prop) :
  table_of t E → (∀ o l, E o l ↔ E' o l) → table_of t E'.
Proof.
  intros [Hs Hc] Hext. split.
  - intros o l H. by apply Hext, Hs.
  - intros o l H. by apply Hc, Hext.
Qed.

Lemma table_of_unique t t' E : table_of t E → table_of t' E → t = t'.
Proof.
  intros [Hs Hc] [Hs' Hc']. apply map_eq. intros o.
  destruct (t !! o) as [l|] eqn:Hl; destruct (t' !! o) as [l'|] eqn:Hl';
    [|exfalso..|done].
  - destruct (Hc' _ _ (Hs _ _ Hl)) as (l1 & Hl1 & Hle1).
    destruct (Hc _ _ (Hs' _ _ Hl')) as (l2 & Hl2 & Hle2).
    simplify_eq. f_equal. lia.
  - destruct (Hc' _ _ (Hs _ _ Hl)) as (l1 & Hl1 & _). congruence.
  - destruct (Hc _ _ (Hs' _ _ Hl')) as (l1 & Hl1 & _). congruence.
Qed.

Lemma table_of_foldl_add ps t0 E0 :
  table_of t0 E0 →
  table_of (foldl (fun t p => add t p.1 p.2) t0 ps)
    (fun o l => E0 o l ∨ (o, l) ∈ ps).
Proof.
  revert t0 E0. induction ps as [|[k L] ps IH]; intros t0 E0 Ht0; simpl.
  - eapply table_of_ext; [exact Ht0|]. intros o l. split; [by left|].
    by intros [?|?%elem_of_nil].
  - eapply table_of_ext.
    { apply IH. rewrite add_longest.
      apply table_of_longest; [exact Ht0|apply table_of_singleton]. }
    intros o l. simpl. rewrite elem_of_cons. split.
    + intros [[?|[-> ->]]|?]; auto.
    + intros [?|[[= -> ->]|?]]; auto.
Qed.

Lemma table_of_insert_all ps :
  table_of (insert_all ps) (fun o l => (o, l) ∈ ps).
Proof.
  eapply table_of_ext; [apply table_of_foldl_add, table_of_empty|].
  intros o l. split; [by intros [[]|?]|by right].
Qed.

(** ** Detectors run on their own *)

Lemma reports_nil m i : ¬ reports m [] i.
Proof. by intros (b & mi & m' & Hb & _). Qed.

Lemma reports_head m b inp :
  reports m (b :: inp) 0 ↔ ∃ m', writeByte m b = Ret (true, m').
Proof.
  split.
  - intros (b' & mi & m' & [= <-] & [= <-] & Hw). eauto.
  - intros (m' & Hw). by exists b, m, m'.
Qed.

Lemma reports_tail m b inp i :
  reports m (b :: inp) (S i) ↔
    ∃ r m', writeByte m b = Ret (r, m') ∧ reports m' inp i.
Proof.
  split.
  - intros (b' & mi & m' & Hb & Hf & Hw). simpl in Hb, Hf.
    destruct (writeByte m b) as [[r m1]| |]; [|done..].
    exists r, m1. split; [done|]. by exists b', mi, m'.
  - intros (r & m1 & Hw1 & b' & mi & m' & Hb & Hf & Hw).
    exists b', mi, m'. split_and!; [done| |done]. simpl. by rewrite Hw1.
Qed.

Lemma reportsb_reports m inp i : reportsb m inp i = true ↔ reports m inp i.
Proof.
  unfold reportsb, reports. split.
  - destruct (inp !! i) as [b|]; [|done].
    destruct (feed m (take i inp)) as [mi| |]; [|done..].
    destruct (writeByte mi b) as [[[] m']| |] eqn:Hw; [|done..].
    intros _. by exists b, mi, m'.
  - intros (b & mi & m' & -> & -> & ->). done.
Qed.

Lemma elem_of_reported_pairs cur ms inp o l :
  (o, l) ∈ reported_pairs cur ms inp ↔
    ∃ j m i, ms !! j = Some m ∧ reports m inp i ∧
             o = matchIndex cur i m ∧ l = Z.of_nat (length (sequence m)).
Proof.
  unfold reported_pairs. rewrite list_elem_of_bind. split.
  - intros (i & Hin & _). apply list_elem_of_bind in Hin as (m & Hin & Hm).
    apply list_elem_of_lookup in Hm as [j Hj].
    destruct (reportsb m inp i) eqn:Hr; [|by apply elem_of_nil in Hin].
    apply list_elem_of_singleton in Hin as [= -> ->].
    exists j, m, i. split_and!; [done| |done..]. by apply reportsb_reports.
  - intros (j & m & i & Hj & Hr & -> & ->). exists i. split.
    + apply list_elem_of_bind. exists m. split.
      * rewrite (proj2 (reportsb_reports m inp i) Hr).
        by apply list_elem_of_singleton.
      * apply list_elem_of_lookup. eauto.
    + apply elem_of_seq. destruct Hr as (b & _ & _ & Hb & _).
      apply lookup_lt_Some in Hb. lia.
Qed.

(** ** write is total on detectors whose cursors are in range *)

Lemma write_matchers_Ret cur i b ms :
  Forall detector_ok ms →
  ∃ t ms',
    write_matchers cur i b ms ∅ = Ret (t, ms') ∧
    Forall2 (fun m m' => ∃ r, writeByte m b = Ret (r, m')) ms ms' ∧
    Forall detector_ok ms' ∧
    table_of t (fun o l => ∃ j m m',
      ms !! j = Some m ∧ writeByte m b = Ret (true, m') ∧
      o = matchIndex cur i m ∧ l = Z.of_nat (length (sequence m))).
Proof.
  induction 1 as [|m ms Hm Hms IH]; simpl.
  - exists ∅, []. split_and!; [done..|].
    eapply table_of_ext; [apply table_of_empty|].
    intros o l. split; [done|]. by intros (j & m & m' & Hj & _).
  - destruct (writeByte_Ret m b Hm) as (r & m' & Hw & Hseq & Hok' & _).
    rewrite Hw. bind. rewrite write_matchers_longest.
    destruct IH as (t & ms' & -> & Hall & Hoks & Htab). bind.
    eexists _, _. split_and!; [done| | |].
    + constructor; eauto.
    + by constructor.
    + eapply table_of_ext.
      { apply table_of_longest; [|exact Htab].
        instantiate (1 := fun o l => r = true ∧ o = matchIndex cur i m ∧
                           l = Z.of_nat (length (sequence m))).
        destruct r.
        - rewrite add_longest, longest_empty_l.
          unfold matchIndex. rewrite Hseq.
          eapply table_of_ext; [apply table_of_singleton|].
          intros o l. split; [by intros [-> ->]|by intros (_ & -> & ->)].
        - eapply table_of_ext; [apply table_of_empty|].
          intros o l. split; [done|by intros [? _]]. }
      intros o l. split.
      * intros [(-> & -> & ->)|(j & m0 & m0' & Hj & Hw0 & -> & ->)].
        -- by exists 0%nat, m, m'.
        -- by exists (S j), m0, m0'.
      * intros (j & m0 & m0' & Hj & Hw0 & -> & ->). destruct j as [|j].
        -- simpl in Hj. simplify_eq. rewrite Hw in Hw0.
           injection Hw0 as -> ->. by left.
        -- right. by exists j, m0, m0'.
Qed.

Lemma matchIndex_sequence cur i m m' :
  sequence m' = sequence m → matchIndex cur i m' = matchIndex cur i m.
Proof. unfold matchIndex. by intros ->. Qed.

Lemma write_loop_Ret cur i0 inp ms :
  Forall detector_ok ms →
  ∃ t ms',
    write_loop cur i0 inp ms ∅ = Ret (t, ms') ∧
    Forall detector_ok ms' ∧
    table_of t (fun o l => ∃ j m i,
      ms !! j = Some m ∧ reports m inp i ∧
      o = matchIndex cur (i0 + i) m ∧ l = Z.of_nat (length (sequence m))).
Proof.
  revert i0 ms. induction inp as [|b inp IH]; intros i0 ms Hms; simpl.
  - exists ∅, ms. split_and!; [done..|].
    eapply table_of_ext; [apply table_of_empty|].
    intros o l. split; [done|]. intros (j & m & i & _ & Hr & _).
    by apply reports_nil in Hr.
  - destruct (write_matchers_Ret cur i0 b ms Hms)
      as (t1 & ms1 & -> & Hstep & Hms1 & Htab1). bind.
    rewrite write_loop_longest.
    destruct (IH (S i0) ms1 Hms1) as (t2 & ms2 & -> & Hms2 & Htab2). bind.
    eexists _, _. split_and!; [done..|].
    eapply table_of_ext; [by apply table_of_longest|].
    intros o l. split.
    + intros [(j & m & m' & Hj & Hw & -> & ->)
             |(j & m1 & i & Hj & Hr & -> & ->)].
      * exists j, m, 0%nat. rewrite Nat.add_0_r.
        split_and!; [done| |done..]. apply reports_head. eauto.
      * destruct (Forall2_lookup_r _ _ _ _ _ Hstep Hj)
          as (m & Hjm & r & Hw).
        pose proof (writeByte_sequence _ _ _ _ Hw) as Hseq.
        exists j, m, (S i). split_and!; [done| | |by rewrite Hseq].
        -- apply reports_tail. eauto.
        -- rewrite (matchIndex_sequence _ _ _ _ Hseq). f_equal. lia.
    + intros (j & m & i & Hj & Hr & -> & ->). destruct i as [|i].
      * apply reports_head in Hr as (m' & Hw). left.
        exists j, m, m'. by rewrite Nat.add_0_r.
      * apply reports_tail in Hr as (r & m' & Hw & Hr). right.
        destruct (Forall2_lookup_l _ _ _ _ _ Hstep Hj)
          as (m1 & Hjm1 & r1 & Hw1).
        rewrite Hw in Hw1. injection Hw1 as <- <-.
        pose proof (writeByte_sequence _ _ _ _ Hw) as Hseq.
        exists j, m', i. split_and!; [done..| |by rewrite Hseq].
        rewrite (matchIndex_sequence _ _ _ _ Hseq). f_equal. lia.
Qed.

Lemma write_Ret mb inp :
  Forall detector_ok (matchers mb) →
  ∃ t mb',
    write mb inp = Ret (t, mb') ∧
    Forall detector_ok (matchers mb') ∧
    matcher_currentIndex mb' =
      add64 (matcher_currentIndex mb) (Z.of_nat (length inp)) ∧
    table_of t (fun o l => ∃ j m i,
      matchers mb !! j = Some m ∧ reports m inp i ∧
      o = matchIndex (matcher_currentIndex mb) i m ∧
      l = Z.of_nat (length (sequence m))).
Proof.
  intros Hms. unfold write.
  destruct (write_loop_Ret (matcher_currentIndex mb) 0 inp _ Hms)
    as (t & ms' & -> & Hms' & Htab). bind.
  eexists _, _. split_and!; done.
Qed.

Lemma writes_Ret mb chunks :
  Forall detector_ok (matchers mb) →
  ∃ ts mb', writes mb chunks = Ret (ts, mb') ∧
            Forall detector_ok (matchers mb').
Proof.
  revert mb. induction chunks as [|c chunks IH]; intros mb Hms; simpl.
  - by exists [], mb.
  - destruct (write_Ret mb c Hms) as (t & mb1 & -> & Hms1 & _). bind.
    destruct (IH mb1 Hms1) as (ts & mb2 & -> & Hms2). bind.
    by eexists _, _.
Qed.

Lemma newMatcher_ok sequences :
  Forall (fun p => p ≠ []) sequences →
  Forall detector_ok (matchers (newMatcher sequences)).
Proof.
  intros H. unfold newMatcher. simpl. apply Forall_fmap.
  eapply Forall_impl; [exact H|]. intros p Hp. unfold detector_ok. simpl.
  destruct p; [done|simpl; lia].
Qed.

Lemma length_concat_total chunks :
  length (concat chunks) = total_length chunks.
Proof.
  induction chunks as [|c chunks IH]; simpl; [done|].
  by rewrite length_app, IH.
Qed.

Lemma write_currentIndex mb inp t mb' :
  write mb inp = Ret (t, mb') →
  matcher_currentIndex mb' =
    add64 (matcher_currentIndex mb) (Z.of_nat (length inp)).
Proof.
  unfold write. destruct (write_loop _ _ _ _ _) as [[??]| |]; bind; [|done..].
  by intros [= <- <-].
Qed.

Lemma writes_currentIndex mb chunks ts mb' :
  int64_range (matcher_currentIndex mb) →
  writes mb chunks = Ret (ts, mb') →
  matcher_currentIndex mb' =
    add64 (matcher_currentIndex mb) (Z.of_nat (total_length chunks)).
Proof.
  intros Hr Hws. apply writes_concat in Hws; [|done].
  apply write_currentIndex in Hws. by rewrite length_concat_total in Hws.
Qed.


(** * The properties of the specification *)

(** ** The match table *)

(** C8.  Merge-keep-longest and order independence: [add] is the
    specification's insert (store when the offset is absent, replace a
    stored value that is no greater than the length, leave the table
    unchanged otherwise); inserting (5, 2) then (5, 3), or (5, 3) then
    (5, 2), gives the table mapping 5 to 3; two inserts at one offset
    commute, the offset ends up at the maximum of the inserted lengths, and
    the other offsets are not touched. *)
Theorem add_keeps_longest (m : gmap Z Z) (offset length l1 l2 : Z) :
  add m offset length = spec_insert m offset length ∧
  add (add ∅ 5 2) 5 3 = {[5 := 3]} ∧
  add (add ∅ 5 3) 5 2 = {[5 := 3]} ∧
  add (add m offset l1) offset l2 = add (add m offset l2) offset l1 ∧
  add (add ∅ offset l1) offset l2 !! offset = Some (Z.max l1 l2) ∧
  delete offset (add m offset length) = delete offset m.
Proof.
  split_and!.
  - unfold add, spec_insert. destruct (m !! offset) as [e|] eqn:He; [|done].
    repeat case_bool_decide; try done; try lia.
    assert (e = length) as -> by lia. by rewrite insert_id.
  - done.
  - done.
  - apply map_eq. intros j. rewrite !lookup_add.
    case_decide; [|done]. rewrite !decide_True by done.
    destruct (m !! offset); f_equal; lia.
  - rewrite !lookup_add, !decide_True by done. by rewrite lookup_empty.
  - apply map_eq. intros j. destruct (decide (offset = j)) as [->|Hne].
    + by rewrite !lookup_delete_eq.
    + rewrite !lookup_delete_ne by done. rewrite lookup_add.
      by rewrite decide_False.
Qed.

(** ** findShift *)

(** C6.  For a non-empty pattern and a cursor in [1, len(pattern)),
    [findShift] returns the smallest offset in [1, cursor] for which
    [pattern[0 .. cursor-offset)] equals [pattern[offset .. cursor)]; it
    returns the cursor itself when no smaller offset has that property. *)
Theorem findShift_smallest_overlap (m : sequenceDetector) :
  sequence m ≠ [] →
  (1 ≤ currentIndex m < length (sequence m))%nat →
  ∃ s, findShift m = Ret s ∧
       (1 ≤ s ≤ currentIndex m)%nat ∧
       overlap (sequence m) (currentIndex m) s ∧
       (∀ o, (1 ≤ o < s)%nat → ¬ overlap (sequence m) (currentIndex m) o) ∧
       ((∀ o, (1 ≤ o < currentIndex m)%nat →
              ¬ overlap (sequence m) (currentIndex m) o) →
        s = currentIndex m).
Proof.
  intros _ [H1 Hlt].
  destruct (findShift_Ret m) as (s & Hs & Hle & Hpos); [lia|].
  destruct (Hpos H1) as (Hs1 & Hov & Hmin).
  exists s. split_and!; [done|lia|lia|done|done|].
  intros Hnone. destruct (decide (s = currentIndex m)) as [|Hne]; [done|].
  destruct (Hnone s); [lia|done].
Qed.

Lemma findShift_smallest_overlap_witness :
  ∃ s, findShift (SequenceDetector (bytes "foofoobar") 6) = Ret s ∧
       (1 ≤ s ≤ 6)%nat ∧
       overlap (bytes "foofoobar") 6 s ∧
       (∀ o, (1 ≤ o < s)%nat → ¬ overlap (bytes "foofoobar") 6 o) ∧
       ((∀ o, (1 ≤ o < 6)%nat → ¬ overlap (bytes "foofoobar") 6 o) →
        s = 6%nat).
Proof.
  apply (findShift_smallest_overlap (SequenceDetector (bytes "foofoobar") 6)).
  - done.
  - simpl. lia.
Defined.

(** C10.  For a non-empty pattern and a cursor with 1 <= cursor <
    len(pattern), the search loop of [findShift] returns from inside the
    loop, at an offset in [1, cursor] (at offset = cursor the comparison
    loop makes no iteration and answers true); the return after the loop is
    only reached with the cursor at 0; and on a byte that the cursor does
    not expect, [writeByte] first moves the cursor strictly down and then
    makes its one retry check at the new cursor. *)
Theorem findShift_loop_succeeds (m : sequenceDetector) (b c : byte) :
  sequence m ≠ [] →
  (1 ≤ currentIndex m < length (sequence m))%nat →
  sequence m !! currentIndex m = Some c → c ≠ b →
  (∃ s, findShift_loop (sequence m) (currentIndex m) 1 (currentIndex m)
          = Ret (Some s) ∧
        (1 ≤ s ≤ currentIndex m)%nat ∧ findShift m = Ret s) ∧
  findShift_inner (sequence m) (currentIndex m) 0
    (currentIndex m - currentIndex m) = Ret true ∧
  (∀ p k, findShift_loop p k 1 k = Ret None → k = 0%nat) ∧
  (∃ m1, shiftCursor m = Ret m1 ∧
         (currentIndex m1 < currentIndex m)%nat ∧
         writeByte m b =
           (c' ← index (sequence m1) (currentIndex m1);
            if decide (c' = b) then Ret (advance m1) else Ret (false, m1))).
Proof.
  intros _ [H1 Hlt] Hc Hne. split_and!.
  - destruct (findShift_loop_Some (sequence m) (currentIndex m) 1
                (currentIndex m)) as (s & Hs & Hr & _); [lia..|].
    exists s. split_and!; [done|lia|lia|]. unfold findShift. by rewrite Hs.
  - by rewrite Nat.sub_diag.
  - intros p k Hk. by apply findShift_loop_None in Hk; [|lia].
  - destruct (shiftCursor_Ret m) as (m1 & Hm1 & _ & _ & Hdown); [lia|].
    exists m1. split_and!; [done|by apply Hdown|].
    rewrite (writeByte_miss _ _ _ Hc Hne), Hm1. done.
Qed.

Lemma findShift_loop_succeeds_witness :
  (∃ s, findShift_loop (bytes "foofoobar") 6 1 6 = Ret (Some s) ∧
        (1 ≤ s ≤ 6)%nat ∧
        findShift (SequenceDetector (bytes "foofoobar") 6) = Ret s) ∧
  findShift_inner (bytes "foofoobar") 6 0 (6 - 6) = Ret true ∧
  (∀ p k, findShift_loop p k 1 k = Ret None → k = 0%nat) ∧
  (∃ m1, shiftCursor (SequenceDetector (bytes "foofoobar") 6) = Ret m1 ∧
         (currentIndex m1 < 6)%nat ∧
         writeByte (SequenceDetector (bytes "foofoobar") 6) "f" =
           (c' ← index (sequence m1) (currentIndex m1);
            if decide (c' = "f"%byte) then Ret (advance m1)
            else Ret (false, m1))).
Proof.
  apply (findShift_loop_succeeds
           (SequenceDetector (bytes "foofoobar") 6) "f" "b").
  - done.
  - simpl. lia.
  - reflexivity.
  - done.
Defined.

(** ** writeByte *)

(** C5.  Totality and bounded retry.  For a detector over a non-empty
    pattern with its cursor in [0, len(pattern)), [writeByte] on any byte
    returns a boolean without indexing out of range, with a call depth of
    at most two (the call and one retry), and leaves the pattern unchanged
    and the cursor again in [0, len(pattern)).  Consequently, on a matcher
    built from non-empty patterns, every [write] of every sequence of
    chunks, empty chunks included, returns. *)
Theorem writeByte_total (m : sequenceDetector) (b : byte)
    (sequences chunks : list (list byte)) :
  sequence m ≠ [] →
  (currentIndex m < length (sequence m))%nat →
  Forall (fun p => p ≠ []) sequences →
  (∃ r m',
     writeByte m b = Ret (r, m') ∧
     (∀ fuel, (2 ≤ fuel)%nat → writeByte_rec fuel m b = Ret (r, m')) ∧
     sequence m' = sequence m ∧
     (currentIndex m' < length (sequence m'))%nat) ∧
  (∃ ts mb',
     writes (newMatcher sequences) chunks = Ret (ts, mb') ∧
     length ts = length chunks ∧
     Forall detector_ok (matchers mb')) ∧
  (∃ t mb', write (newMatcher sequences) [] = Ret (t, mb')).
Proof.
  intros _ Hlt Hne. split_and!.
  - destruct (writeByte_Ret m b Hlt) as (r & m' & Hw & Hseq & Hok & _).
    exists r, m'. split_and!; [done| |done|done].
    intros fuel Hfuel. by rewrite writeByte_rec_fuel.
  - destruct (writes_Ret (newMatcher sequences) chunks)
      as (ts & mb' & Hws & Hok); [by apply newMatcher_ok|].
    exists ts, mb'. split_and!; [done| |done].
    clear Hok. revert ts mb' Hws. generalize (newMatcher sequences).
    induction chunks as [|c chunks IH]; intros mb ts mb'; simpl.
    + by intros [= <- <-].
    + destruct (write mb c) as [[t mb1]| |]; bind; [|done..].
      destruct (writes mb1 chunks) as [[ts1 mb2]| |] eqn:Hws; bind;
        [|done..].
      intros [= <- <-]. simpl. f_equal. by eapply IH.
  - destruct (write_Ret (newMatcher sequences) [])
      as (t & mb' & Hw & _); [by apply newMatcher_ok|]. eauto.
Qed.

Lemma writeByte_total_witness :
  (∃ r m',
     writeByte (SequenceDetector (bytes "foofoobar") 6) "f" = Ret (r, m') ∧
     (∀ fuel, (2 ≤ fuel)%nat →
        writeByte_rec fuel (SequenceDetector (bytes "foofoobar") 6) "f"
          = Ret (r, m')) ∧
     sequence m' = bytes "foofoobar" ∧
     (currentIndex m' < length (sequence m'))%nat) ∧
  (∃ ts mb',
     writes (newMatcher [bytes "aa"; bytes "aaa"]) [bytes "aa"; []; bytes "a"]
       = Ret (ts, mb') ∧
     length ts = 3%nat ∧
     Forall detector_ok (matchers mb')) ∧
  (∃ t mb', write (newMatcher [bytes "aa"; bytes "aaa"]) [] = Ret (t, mb')).
Proof.
  apply (writeByte_total (SequenceDetector (bytes "foofoobar") 6) "f"
           [bytes "aa"; bytes "aaa"] [bytes "aa"; []; bytes "a"]).
  - done.
  - simpl. lia.
  - repeat constructor; done.
Defined.

(** C7.  Self-overlap recovery: the matcher for the 9-byte pattern
    "foofoobar", given the 12 bytes "foofoofoobar" in one [write], returns a
    table in which offset 3 maps to length 9. *)
Theorem self_overlap_recovery :
  length (bytes "foofoobar") = 9%nat ∧
  length (bytes "foofoofoobar") = 12%nat ∧
  ∃ t mb,
    write (newMatcher [bytes "foofoobar"]) (bytes "foofoofoobar")
      = Ret (t, mb) ∧
    t !! 3 = Some 9 ∧ t = {[3 := 9]}.
Proof.
  split_and!; [done..|].
  eexists _, _. split; [vm_compute; reflexivity|]. split; reflexivity.
Qed.

(** ** write *)

(** C2, as the specification states it, fails: with the patterns "aa" and
    "aaa", the table returned for "aaaa" maps offset 0 to 3 but has no
    entry at offset 1. *)
Lemma overlapping_patterns_offset_1_absent :
  ∃ t mb,
    write (newMatcher [bytes "aa"; bytes "aaa"]) (bytes "aaaa")
      = Ret (t, mb) ∧
    ¬ (t !! 0 = Some 3 ∧ is_Some (t !! 1)).
Proof.
  eexists _, _. split; [vm_compute; reflexivity|].
  intros [_ [l Hl]]. vm_compute in Hl. discriminate.
Qed.

(** C2, amended.  With the patterns "aa" and "aaa", one [write] of "aaaa"
    returns the table with offset 0 at length 3 (the longer pattern wins at
    that offset) and offset 2 at length 2, and nothing else: a detector
    starts again from cursor 0 after a match, so the occurrences that begin
    at offset 1 inside the reported ones are not reported.  The "aa"
    detector is left at cursor 0 and the "aaa" detector at cursor 1. *)
Theorem overlapping_patterns_table :
  write (newMatcher [bytes "aa"; bytes "aaa"]) (bytes "aaaa")
    = Ret ({[0 := 3; 2 := 2]},
           Matcher [SequenceDetector (bytes "aa") 0;
                    SequenceDetector (bytes "aaa") 1] 4) ∧
  ({[0 := 3; 2 := 2]} : gmap Z Z) !! 0 = Some 3 ∧
  ({[0 := 3; 2 := 2]} : gmap Z Z) !! 1 = None ∧
  ({[0 := 3; 2 := 2]} : gmap Z Z) !! 2 = Some 2.
Proof. split_and!; vm_compute; reflexivity. Qed.




(** C4, as the specification states it, fails: the returned table does
    not contain every pair inserted during the call.  With the patterns
    "aa" and "aaa" and the chunk "aaa", the detector of "aa" reports on
    byte 1 and the pair (0, 2) is inserted, then the pair (0, 3); the
    returned table maps 0 to 3 and holds no pair (0, 2). *)
Lemma write_keeps_longest_pair_only :
  ∃ t mb',
    write (newMatcher [bytes "aa"; bytes "aaa"]) (bytes "aaa")
      = Ret (t, mb') ∧
    reports (SequenceDetector (bytes "aa") 0) (bytes "aaa") 1 ∧
    matchIndex 0 1 (SequenceDetector (bytes "aa") 0) = 0 ∧
    reported_pairs 0 (matchers (newMatcher [bytes "aa"; bytes "aaa"]))
      (bytes "aaa") = [(0, 2); (0, 3)] ∧
    t !! 0 = Some 3 ∧
    ¬ (∀ o l,
         (o, l) ∈ reported_pairs 0
                    (matchers (newMatcher [bytes "aa"; bytes "aaa"]))
                    (bytes "aaa") →
         t !! o = Some l).
Proof.
  exists {[0 := 3]},
    (Matcher [SequenceDetector (bytes "aa") 1;
              SequenceDetector (bytes "aaa") 0] 3).
  assert (reported_pairs 0 (matchers (newMatcher [bytes "aa"; bytes "aaa"]))
            (bytes "aaa") = [(0, 2); (0, 3)]) as Hpairs
    by (vm_compute; reflexivity).
  split_and!.
  - vm_compute. reflexivity.
  - exists "a"%byte, (SequenceDetector (bytes "aa") 1),
      (SequenceDetector (bytes "aa") 0).
    split_and!; reflexivity.
  - reflexivity.
  - exact Hpairs.
  - reflexivity.
  - intros Hall. specialize (Hall 0 2). rewrite Hpairs in Hall.
    specialize (Hall (list_elem_of_here _ _)). done.
Qed.

(** C4, amended.  In a [write] of a chunk, every match that a detector
    with a pattern of length L reports on byte [i] is inserted, by [add],
    at the offset [streamOffset + i - L + 1] with length L into a table
    that starts empty, and the returned table is the result of these
    inserts: it has an entry at that offset, of length L or of the longer
    match inserted there (a shorter pair inserted at the same offset is
    not in it), and every entry of the returned table is such a pair, of
    a match reported in this call: the table is what [add] makes of the
    pairs of this call, and of nothing else, from the empty table.  The
    offset is computed
    in 64-bit arithmetic and is [streamOffset + i - L + 1] itself whenever
    that number is a 64-bit integer; it is before the start of the chunk
    when the match began in an earlier call: with the pattern "ab", the
    chunks "aba" and "b" give the table {0: 2} and then the table {2: 2},
    whose offset 2 is before the second chunk's start 3, and which does
    not repeat the entry of the first call. *)
Theorem write_inserts_reported_matches (mb : matcher) (inp : list byte) :
  Forall detector_ok (matchers mb) →
  ∃ t mb',
    write mb inp = Ret (t, mb') ∧
    (∀ j m i,
       matchers mb !! j = Some m → reports m inp i →
       ∃ l, t !! matchIndex (matcher_currentIndex mb) i m = Some l ∧
            Z.of_nat (length (sequence m)) <= l) ∧
    (∀ o l,
       t !! o = Some l →
       ∃ j m i,
         matchers mb !! j = Some m ∧ reports m inp i ∧
         o = matchIndex (matcher_currentIndex mb) i m ∧
         l = Z.of_nat (length (sequence m))) ∧
    t = insert_all
          (reported_pairs (matcher_currentIndex mb) (matchers mb) inp) ∧
    (∀ i m,
       int64_range (matcher_currentIndex mb + Z.of_nat i
                    - Z.of_nat (length (sequence m)) + 1) →
       matchIndex (matcher_currentIndex mb) i m =
         matcher_currentIndex mb + Z.of_nat i
         - Z.of_nat (length (sequence m)) + 1) ∧
    writes (newMatcher [bytes "ab"]) [bytes "aba"; bytes "b"]
      = Ret ([{[0 := 2]}; {[2 := 2]}],
             Matcher [SequenceDetector (bytes "ab") 0] 4).
Proof.
  intros Hms.
  destruct (write_Ret mb inp Hms) as (t & mb' & Hw & _ & _ & Htab).
  pose proof Htab as [Hsound Hcompl].
  exists t, mb'. split_and!; [done| |done| | |vm_compute; reflexivity].
  - intros j m i Hj Hr. apply Hcompl. by exists j, m, i.
  - apply (table_of_unique _ _ _ Htab).
    eapply table_of_ext; [apply table_of_insert_all|].
    intros o l. apply elem_of_reported_pairs.
  - intros i m Hr. unfold matchIndex, add64.
    etrans; [|apply (wrap64_id _ Hr)]. f_equal. lia.
Qed.

Lemma write_inserts_reported_matches_witness :
  ∃ t mb',
    write (Matcher [SequenceDetector (bytes "foofoobar") 6] 6)
      (bytes "foobar") = Ret (t, mb') ∧
    (∀ j m i,
       [SequenceDetector (bytes "foofoobar") 6] !! j = Some m →
       reports m (bytes "foobar") i →
       ∃ l, t !! matchIndex 6 i m = Some l ∧
            Z.of_nat (length (sequence m)) <= l) ∧
    (∀ o l,
       t !! o = Some l →
       ∃ j m i,
         [SequenceDetector (bytes "foofoobar") 6] !! j = Some m ∧
         reports m (bytes "foobar") i ∧
         o = matchIndex 6 i m ∧
         l = Z.of_nat (length (sequence m))) ∧
    t = insert_all
          (reported_pairs 6 [SequenceDetector (bytes "foofoobar") 6]
             (bytes "foobar")) ∧
    (∀ i m,
       int64_range (6 + Z.of_nat i - Z.of_nat (length (sequence m)) + 1) →
       matchIndex 6 i m =
         6 + Z.of_nat i - Z.of_nat (length (sequence m)) + 1) ∧
    writes (newMatcher [bytes "ab"]) [bytes "aba"; bytes "b"]
      = Ret ([{[0 := 2]}; {[2 := 2]}],
             Matcher [SequenceDetector (bytes "ab") 0] 4).
Proof.
  apply (write_inserts_reported_matches
           (Matcher [SequenceDetector (bytes "foofoobar") 6] 6)
           (bytes "foobar")).
  constructor; [unfold detector_ok; simpl; lia|constructor].
Defined.

(** C9.  Stream-offset accounting.  After any sequence of [write] calls on
    a matcher built from non-empty patterns, the stream offset is the
    number of bytes in all the chunks passed so far, as a 64-bit integer,
    and that number itself while it is below 2^63; it is the same for every
    other division of the same bytes into chunks, and for every other list
    of patterns on which the calls return; a further [write] adds
    the length of its chunk, so the offset does not decrease; and a [write]
    of the empty chunk returns the empty table and leaves the matcher, its
    stream offset included, as it was. *)
Theorem streamOffset_accounting (sequences chunks chunks' : list (list byte))
    (c : list byte) :
  Forall (fun p => p ≠ []) sequences →
  concat chunks' = concat chunks →
  ∃ ts mb,
    writes (newMatcher sequences) chunks = Ret (ts, mb) ∧
    matcher_currentIndex mb = wrap64 (Z.of_nat (total_length chunks)) ∧
    (Z.of_nat (total_length chunks) < 2 ^ 63 →
     matcher_currentIndex mb = Z.of_nat (total_length chunks)) ∧
    (∃ ts' mb', writes (newMatcher sequences) chunks' = Ret (ts', mb') ∧
                matcher_currentIndex mb' = matcher_currentIndex mb) ∧
    (∀ sequences0 ts0 mb0,
       writes (newMatcher sequences0) chunks = Ret (ts0, mb0) →
       matcher_currentIndex mb0 = matcher_currentIndex mb) ∧
    (∃ t mb1, write mb c = Ret (t, mb1) ∧
              matcher_currentIndex mb1 =
                add64 (matcher_currentIndex mb) (Z.of_nat (length c)) ∧
              (Z.of_nat (total_length chunks) + Z.of_nat (length c) < 2 ^ 63 →
               matcher_currentIndex mb1 =
                 matcher_currentIndex mb + Z.of_nat (length c) ∧
               matcher_currentIndex mb <= matcher_currentIndex mb1)) ∧
    write mb [] = Ret (∅, mb).
Proof.
  intros Hne Hsame.
  pose proof (newMatcher_ok _ Hne) as Hok.
  assert (int64_range (matcher_currentIndex (newMatcher sequences))) as Hr0.
  { simpl. unfold int64_range. lia. }
  destruct (writes_Ret _ chunks Hok) as (ts & mb & Hws & Hmb).
  destruct (writes_Ret _ chunks' Hok) as (ts' & mb' & Hws' & _).
  pose proof (writes_concat _ _ _ _ Hr0 Hws) as Hw.
  pose proof (writes_concat _ _ _ _ Hr0 Hws') as Hw'.
  rewrite Hsame, Hw in Hw'. injection Hw' as _ <-.
  assert (matcher_currentIndex mb = wrap64 (Z.of_nat (total_length chunks)))
    as Hcur.
  { destruct (write_Ret _ (concat chunks) Hok) as (t & mb2 & Hw2 & _ & Hc & _).
    rewrite Hw in Hw2. injection Hw2 as _ <-.
    rewrite Hc, length_concat_total. done. }
  assert (Z.of_nat (total_length chunks) < 2 ^ 63 →
          matcher_currentIndex mb = Z.of_nat (total_length chunks)) as Hexact.
  { intros Hlt. rewrite Hcur. apply wrap64_id. unfold int64_range. lia. }
  exists ts, mb. split_and!; [done..| | | |].
  - by exists ts', mb.
  - intros sequences0 ts0 mb0 Hws0.
    rewrite (writes_currentIndex (newMatcher sequences0) _ _ _ Hr0 Hws0).
    by rewrite Hcur.
  - destruct (write_Ret mb c Hmb) as (t & mb1 & Hw1 & _ & Hc1 & _).
    exists t, mb1. split_and!; [done..|]. intros Hlt.
    rewrite Hc1, Hexact by lia. unfold add64.
    rewrite wrap64_id by (unfold int64_range; lia). lia.
  - apply write_nil. rewrite Hcur. apply wrap64_range.
Qed.

Lemma streamOffset_accounting_witness :
  ∃ ts mb,
    writes (newMatcher [bytes "aa"; bytes "aaa"]) [bytes "aa"; bytes "a"]
      = Ret (ts, mb) ∧
    matcher_currentIndex mb
      = wrap64 (Z.of_nat (total_length [bytes "aa"; bytes "a"])) ∧
    (Z.of_nat (total_length [bytes "aa"; bytes "a"]) < 2 ^ 63 →
     matcher_currentIndex mb
       = Z.of_nat (total_length [bytes "aa"; bytes "a"])) ∧
    (∃ ts' mb',
       writes (newMatcher [bytes "aa"; bytes "aaa"]) [bytes "a"; bytes "aa"]
         = Ret (ts', mb') ∧
       matcher_currentIndex mb' = matcher_currentIndex mb) ∧
    (∀ sequences0 ts0 mb0,
       writes (newMatcher sequences0) [bytes "aa"; bytes "a"]
         = Ret (ts0, mb0) →
       matcher_currentIndex mb0 = matcher_currentIndex mb) ∧
    (∃ t mb1, write mb (bytes "aaaa") = Ret (t, mb1) ∧
              matcher_currentIndex mb1 =
                add64 (matcher_currentIndex mb)
                  (Z.of_nat (length (bytes "aaaa"))) ∧
              (Z.of_nat (total_length [bytes "aa"; bytes "a"])
               + Z.of_nat (length (bytes "aaaa")) < 2 ^ 63 →
               matcher_currentIndex mb1 =
                 matcher_currentIndex mb
                 + Z.of_nat (length (bytes "aaaa")) ∧
               matcher_currentIndex mb <= matcher_currentIndex mb1)) ∧
    write mb [] = Ret (∅, mb).
Proof.
  apply (streamOffset_accounting [bytes "aa"; bytes "aaa"]
           [bytes "aa"; bytes "a"] [bytes "a"; bytes "aa"] (bytes "aaaa")).
  - repeat constructor; done.
  - reflexivity.
Defined.

(** C1, as the specification states it, fails: with the patterns "aa" and
    "aaa", the bytes "aaa" written as "aa" and then "a" give the pair
    (0, 2) in the first table and (0, 3) in the second, while one [write]
    of "aaa" gives the pair (0, 3) alone. *)
Lemma chunking_union_differs :
  ∃ ts mb t mb',
    writes (newMatcher [bytes "aa"; bytes "aaa"]) [bytes "aa"; bytes "a"]
      = Ret (ts, mb) ∧
    write (newMatcher [bytes "aa"; bytes "aaa"]) (bytes "aa" ++ bytes "a")
      = Ret (t, mb') ∧
    pairs_union ts ≠ pairs t.
Proof.
  exists [{[0 := 2]}; {[0 := 3]}],
    (Matcher [SequenceDetector (bytes "aa") 1;
              SequenceDetector (bytes "aaa") 0] 3),
    {[0 := 3]},
    (Matcher [SequenceDetector (bytes "aa") 1;
              SequenceDetector (bytes "aaa") 0] 3).
  split_and!; [vm_compute; reflexivity..|].
  intros Heq.
  assert ((0, 2) ∈ pairs_union [({[0 := 2]} : gmap Z Z); {[0 := 3]}]) as Hin.
  { apply elem_of_pairs_union. exists {[0 := 2]}.
    split; [apply list_elem_of_here|done]. }
  rewrite Heq in Hin. apply elem_of_pairs in Hin. done.
Qed.

(** C1, amended.  Chunking invariance, up to the merge of the tables.  For
    every list of non-empty patterns and every division of a byte sequence
    into consecutive chunks written by successive [write] calls, the table
    returned by one [write] of the whole sequence on a fresh matcher is the
    keep-longest merge of the returned tables: its pairs are the pairs of
    the union that have the greatest length at their offset.  The two
    matchers end in the same state. *)
Theorem chunking_invariance_longest (sequences chunks : list (list byte)) :
  Forall (fun p => p ≠ []) sequences →
  ∃ ts t mb,
    writes (newMatcher sequences) chunks = Ret (ts, mb) ∧
    write (newMatcher sequences) (concat chunks) = Ret (t, mb) ∧
    t = foldr longest ∅ ts ∧
    (∀ o l, t !! o = Some l ↔
            (o, l) ∈ pairs_union ts ∧
            ∀ l', (o, l') ∈ pairs_union ts → l' <= l).
Proof.
  intros Hne. pose proof (newMatcher_ok _ Hne) as Hok.
  destruct (writes_Ret _ chunks Hok) as (ts & mb & Hws & _).
  exists ts, (foldr longest ∅ ts), mb. split_and!; [done| |done|].
  - apply writes_concat; [|done]. simpl. unfold int64_range. lia.
  - intros o l. rewrite lookup_foldr_longest, elem_of_pairs_union.
    split; intros [Hex Hmax]; (split; [done|]).
    + intros l' (t' & Ht' & Hl')%elem_of_pairs_union. eauto.
    + intros t' l' Ht' Hl'. apply Hmax, elem_of_pairs_union. eauto.
Qed.

Lemma chunking_invariance_longest_witness :
  ∃ ts t mb,
    writes (newMatcher [bytes "aa"; bytes "aaa"]) [bytes "aa"; bytes "a"]
      = Ret (ts, mb) ∧
    write (newMatcher [bytes "aa"; bytes "aaa"])
      (concat [bytes "aa"; bytes "a"]) = Ret (t, mb) ∧
    t = foldr longest ∅ ts ∧
    (∀ o l, t !! o = Some l ↔
            (o, l) ∈ pairs_union ts ∧
            ∀ l', (o, l') ∈ pairs_union ts → l' <= l).
Proof.
  apply (chunking_invariance_longest [bytes "aa"; bytes "aaa"]
           [bytes "aa"; bytes "a"]).
  repeat constructor; done.
Defined.

(** * Further properties of the matcher *)

(** ** Detectors, byte by byte *)

Lemma feed_app m inp1 inp2 :
  feed m (inp1 ++ inp2) = m1 ← feed m inp1; feed m1 inp2.
Proof.
  revert m. induction inp1 as [|b inp1 IH]; intros m; simpl; [done|].
  destruct (writeByte m b) as [[r m']| |]; bind; [|done..]. apply IH.
Qed.

Lemma feed_Ret m inp :
  detector_ok m →
  ∃ m', feed m inp = Ret m' ∧ sequence m' = sequence m ∧ detector_ok m' ∧
        (currentIndex m' ≤ currentIndex m + length inp)%nat.
Proof.
  revert m. induction inp as [|b inp IH]; intros m Hok; simpl.
  - exists m. split_and!; [done..|lia].
  - destruct (writeByte_Ret m b Hok) as (r & m1 & -> & Hseq & Hok1 & Hle).
    bind. destruct (IH m1 Hok1) as (m' & -> & Hseq' & Hok' & Hle').
    exists m'. split_and!; [done|congruence|done|lia].
Qed.

(** A match is reported on a byte only by the direct step from the last
    cursor position; the retry after a shift never completes a match. *)
Lemma writeByte_true m b m' :
  detector_ok m →
  writeByte m b = Ret (true, m') ↔
    S (currentIndex m) = length (sequence m) ∧
    sequence m !! currentIndex m = Some b ∧
    m' = SequenceDetector (sequence m) 0.
Proof.
  intros Hok. pose proof Hok as Hlt. unfold detector_ok in Hlt.
  destruct (lookup_lt_is_Some_2 _ _ Hlt) as [c Hc]. split.
  - destruct (decide (c = b)) as [->|Hne].
    + rewrite (writeByte_hit _ _ Hc). unfold advance.
      case_decide; intros [= <-]; done.
    + rewrite (writeByte_miss _ _ _ Hc Hne).
      destruct (shiftCursor_Ret m) as (m1 & -> & Hseq & Hle & Hdown); [lia|].
      bind. destruct (index _ _) as [c'| |] eqn:Hc'; bind; [|done..].
      case_decide as Heq; [|done]. subst c'. apply index_Ret in Hc'.
      unfold advance. case_decide as Hlen; [|done]. intros _. exfalso.
      rewrite Hseq in Hlen, Hc'.
      destruct (decide (currentIndex m = 0)%nat) as [Hz|Hnz].
      * assert (currentIndex m1 = 0%nat) as Hz1 by lia.
        rewrite Hz in Hc. rewrite Hz1 in Hc'. congruence.
      * specialize (Hdown ltac:(lia)). lia.
  - intros (Hlen & Hb & ->). rewrite (writeByte_hit _ _ Hb).
    unfold advance. by rewrite decide_True.
Qed.

Lemma reports_last_step m inp i :
  detector_ok m → reports m inp i →
  ∃ mi, feed m (take i inp) = Ret mi ∧
        S (currentIndex mi) = length (sequence m) ∧
        inp !! i = last (sequence m).
Proof.
  intros Hok (b & mi & m' & Hb & Hf & Hw).
  destruct (feed_Ret m (take i inp) Hok) as (mi' & Hf' & Hseq & Hoki & _).
  rewrite Hf in Hf'. injection Hf' as <-.
  apply writeByte_true in Hw as (Hlen & Hbi & _); [|done].
  exists mi. rewrite Hseq in Hlen, Hbi. split_and!; [done..|].
  rewrite Hb, last_lookup, <- Hbi. f_equal. lia.
Qed.

(** The cursor moves up by at most one per byte, so a report on byte [i]
    needs a cursor that was within [i + 1] of the end of the pattern. *)
Lemma reports_cursor m inp i :
  detector_ok m → reports m inp i →
  (length (sequence m) ≤ currentIndex m + i + 1)%nat ∧ (i < length inp)%nat.
Proof.
  intros Hok Hr. pose proof Hr as (b & _ & _ & Hb%lookup_lt_Some & _).
  destruct (reports_last_step m inp i Hok Hr) as (mi & Hf & Hlen & _).
  destruct (feed_Ret m (take i inp) Hok) as (mi' & Hf' & _ & _ & Hle).
  rewrite Hf in Hf'. injection Hf' as <-.
  rewrite length_take in Hle. lia.
Qed.

Lemma write_matchers_step cur i b ms res t ms' :
  write_matchers cur i b ms res = Ret (t, ms') →
  Forall2 (fun m m' => ∃ r, writeByte m b = Ret (r, m')) ms ms'.
Proof.
  revert res t ms'. induction ms as [|m ms IH]; intros res t ms'; simpl.
  - intros [= <- <-]. constructor.
  - destruct (writeByte m b) as [[r m1]| |] eqn:Hw; bind; [|done..].
    destruct (write_matchers _ _ _ ms _) as [[t1 ms1]| |] eqn:Hms; bind;
      [|done..].
    intros [= <- <-]. constructor; [eauto|]. by eapply IH.
Qed.

Lemma write_loop_feed cur i inp ms res t ms' :
  write_loop cur i inp ms res = Ret (t, ms') →
  Forall2 (fun m m' => feed m inp = Ret m') ms ms'.
Proof.
  revert i ms res. induction inp as [|b inp IH]; intros i ms res; simpl.
  - intros [= <- <-]. by apply Forall2_same_length_lookup_2; [|naive_solver].
  - destruct (write_matchers cur i b ms res) as [[t1 ms1]| |] eqn:Hstep;
      bind; [|done..].
    intros Hloop. apply write_matchers_step in Hstep. apply IH in Hloop.
    clear -Hstep Hloop. revert ms' Hloop.
    induction Hstep as [|m m1 ms ms1 [r Hw] Hstep IHs]; intros ms' Hloop.
    + inversion Hloop. constructor.
    + inversion Hloop as [|? m' ? ms'' Hf Hrest]; subst.
      constructor; [|by apply IHs]. by rewrite Hw.
Qed.

Lemma table_of_self (m : gmap Z Z) : table_of m (fun o l => m !! o = Some l).
Proof. split; [done|]. intros o l Hl. exists l. split; [done|lia]. Qed.

Lemma writeByte_Panic m b :
  writeByte m b = Panic ↔ (length (sequence m) ≤ currentIndex m)%nat.
Proof.
  split.
  - intros Hp. destruct (decide (currentIndex m < length (sequence m))%nat)
      as [Hlt|]; [|lia].
    destruct (writeByte_Ret m b Hlt) as (r & m' & Hw & _). congruence.
  - intros Hge.
    assert (index (sequence m) (currentIndex m) = Panic) as Hpanic.
    { unfold index. by rewrite lookup_ge_None_2. }
    unfold writeByte. by rewrite writeByte_rec_S, Hpanic.
Qed.

Lemma write_matchers_Panic_iff cur i b ms res :
  write_matchers cur i b ms res = Panic ↔
    Exists (fun m => (length (sequence m) ≤ currentIndex m)%nat) ms.
Proof.
  revert res. induction ms as [|m ms IH]; intros res; simpl.
  - split; [done|]. by intros ?%Exists_nil.
  - rewrite Exists_cons.
    destruct (decide (currentIndex m < length (sequence m))%nat) as [Hlt|Hge].
    + destruct (writeByte_Ret m b Hlt) as (r & m' & -> & _). bind.
      set (res' := if r then _ else res). rewrite <- (IH res').
      destruct (write_matchers _ _ _ ms res') as [[??]| |]; bind.
      * split; [done|]. intros [?|?]; [lia|done].
      * split; [by right|done].
      * split; [done|]. intros [?|?]; [lia|done].
    + rewrite (proj2 (writeByte_Panic m b)) by lia. split; [left; lia|done].
Qed.

(** ** The match table *)

(** X1.  [add] only ever extends a table, the empty one included: the
    keys of the result are the keys of the table and the given offset; the
    given offset is in the result, with the given length or a greater one;
    every entry that was in the table is in the result, with a length that
    is at least what it was; and an offset that was absent is absent from
    the result, unless it is the given one. *)
Theorem add_never_shrinks (m : gmap Z Z) (offset length o' : Z) :
  dom (add m offset length) = {[offset]} ∪ dom m ∧
  (∃ l, add m offset length !! offset = Some l ∧ length <= l) ∧
  match m !! o' with
  | Some l' => ∃ l'', add m offset length !! o' = Some l'' ∧ l' <= l''
  | None => o' = offset ∨ add m offset length !! o' = None
  end.
Proof.
  split_and!.
  - apply set_eq. intros j. rewrite elem_of_union, elem_of_singleton.
    rewrite !elem_of_dom, lookup_add. case_decide as Hj.
    + split; [by left|]. intros _. eauto.
    + split; [by right|]. by intros [?|?].
  - rewrite lookup_add, decide_True by done.
    destruct (m !! offset); eexists; (split; [done|lia]).
  - destruct (m !! o') as [l'|] eqn:Ho'.
    + rewrite lookup_add. case_decide as Hj.
      * subst o'. rewrite Ho'. eexists. split; [done|]. lia.
      * exists l'. split; [done|lia].
    + destruct (decide (o' = offset)) as [|Hne]; [by left|right].
      rewrite lookup_add, decide_False by done. done.
Qed.

(** X2.  The table that a run of [add] calls builds depends only on the set of
    pairs inserted, not on their order or on how often a pair is inserted. *)
Theorem add_order_irrelevant (m : gmap Z Z) (ps ps' : list (Z * Z)) :
  (∀ p, p ∈ ps ↔ p ∈ ps') →
  foldl (fun t p => add t p.1 p.2) m ps
    = foldl (fun t p => add t p.1 p.2) m ps'.
Proof.
  intros Hsame. eapply table_of_unique.
  - apply table_of_foldl_add, table_of_self.
  - eapply table_of_ext; [apply table_of_foldl_add, table_of_self|].
    intros o l. simpl. by rewrite Hsame.
Qed.

Lemma add_order_irrelevant_witness :
  foldl (fun t p => add t p.1 p.2) ({[7 := 1]} : gmap Z Z)
    [(5, 2); (5, 3); (7, 4)]
  = foldl (fun t p => add t p.1 p.2) ({[7 := 1]} : gmap Z Z)
      [(7, 4); (5, 3); (5, 2); (5, 3)].
Proof.
  apply (add_order_irrelevant {[7 := 1]} [(5, 2); (5, 3); (7, 4)]
           [(7, 4); (5, 3); (5, 2); (5, 3)]).
  intros p. rewrite !elem_of_cons, !elem_of_nil. tauto.
Defined.

(** ** Detectors *)

(** X3.  A detector reports a match on a byte exactly when its cursor is at the
    last position of the pattern and the byte is the last byte of the
    pattern; it is then back at cursor 0. *)
Theorem report_only_on_last_byte (m : sequenceDetector) (b : byte) :
  detector_ok m →
  ((∃ m', writeByte m b = Ret (true, m')) ↔
     S (currentIndex m) = length (sequence m) ∧ last (sequence m) = Some b) ∧
  (∀ m', writeByte m b = Ret (true, m') →
         m' = SequenceDetector (sequence m) 0).
Proof.
  intros Hok. split.
  - split.
    + intros [m' (Hlen & Hb & _)%writeByte_true]; [|done].
      split; [done|]. rewrite last_lookup, <- Hb. f_equal. lia.
    + intros [Hlen Hb]. exists (SequenceDetector (sequence m) 0).
      apply writeByte_true; [done|]. split_and!; [done| |done].
      rewrite <- Hb, last_lookup. f_equal. lia.
  - by intros m' (_ & _ & ->)%writeByte_true.
Qed.

Lemma report_only_on_last_byte_witness :
  ((∃ m', writeByte (SequenceDetector (bytes "foofoobar") 8) "r"
            = Ret (true, m')) ↔
     9%nat = length (bytes "foofoobar") ∧
     last (bytes "foofoobar") = Some ("r"%byte)) ∧
  (∀ m', writeByte (SequenceDetector (bytes "foofoobar") 8) "r"
           = Ret (true, m') →
         m' = SequenceDetector (bytes "foofoobar") 0).
Proof.
  apply (report_only_on_last_byte (SequenceDetector (bytes "foofoobar") 8) "r").
  unfold detector_ok. simpl. lia.
Defined.

(** X4.  Two matches that one detector reports are at least the length of its
    pattern apart: the occurrences it reports never overlap. *)
Theorem reports_never_overlap (m : sequenceDetector) (inp : list byte)
    (i i' : nat) :
  detector_ok m → reports m inp i → reports m inp i' → (i < i')%nat →
  (i + length (sequence m) ≤ i')%nat.
Proof.
  intros Hok Hi Hi' Hlt.
  destruct Hi as (b & mi & m0 & Hb & Hf & Hw).
  destruct (feed_Ret m (take i inp) Hok) as (? & Hf0 & Hseq & Hoki & _).
  rewrite Hf in Hf0. injection Hf0 as <-.
  pose proof Hw as (_ & _ & ->)%writeByte_true; [|done].
  destruct (reports_last_step m inp i' Hok Hi') as (mi' & Hf' & Hlen' & _).
  assert (take i' inp = take i inp ++ b :: take (i' - S i) (drop (S i) inp))
    as Hsplit.
  { replace i' with (i + S (i' - S i))%nat at 1 by lia.
    rewrite <- take_take_drop. f_equal. by rewrite (drop_S _ _ _ Hb). }
  rewrite Hsplit, feed_app, Hf in Hf'. cbn [mbind outcome_bind feed] in Hf'.
  rewrite Hw in Hf'. cbn [mbind outcome_bind] in Hf'.
  destruct (feed_Ret (SequenceDetector (sequence mi) 0)
              (take (i' - S i) (drop (S i) inp))) as (m2 & Hf2 & _ & _ & Hle).
  { unfold detector_ok in *. simpl. lia. }
  rewrite Hf2 in Hf'. injection Hf' as <-.
  rewrite length_take in Hle. simpl in Hle. lia.
Qed.

Lemma reports_never_overlap_witness :
  (1 + length (bytes "aa") ≤ 3)%nat.
Proof.
  apply (reports_never_overlap (SequenceDetector (bytes "aa") 0)
           (bytes "aaaa") 1 3).
  - unfold detector_ok. simpl. lia.
  - exists "a"%byte, (SequenceDetector (bytes "aa") 1),
      (SequenceDetector (bytes "aa") 0).
    split_and!; reflexivity.
  - exists "a"%byte, (SequenceDetector (bytes "aa") 1),
      (SequenceDetector (bytes "aa") 0).
    split_and!; reflexivity.
  - lia.
Defined.

(** ** write *)

(** X5.  The detectors of a matcher do not influence each other: after a
    [write], each detector is in the state it reaches when it reads the
    chunk on its own, whatever the other detectors and the stream offset
    are. *)
Theorem detectors_independent (mb : matcher) (inp : list byte)
    (t : gmap Z Z) (mb' : matcher) :
  write mb inp = Ret (t, mb') →
  length (matchers mb') = length (matchers mb) ∧
  ∀ j m, matchers mb !! j = Some m →
         ∃ m', matchers mb' !! j = Some m' ∧ feed m inp = Ret m' ∧
               sequence m' = sequence m.
Proof.
  unfold write.
  destruct (write_loop _ _ _ _ _) as [[t1 ms1]| |] eqn:Hloop; bind; [|done..].
  intros [= <- <-]. simpl. apply write_loop_feed in Hloop.
  split; [symmetry; by eapply Forall2_length|].
  intros j m Hj.
  destruct (Forall2_lookup_l _ _ _ _ _ Hloop Hj) as (m' & Hj' & Hf).
  exists m'. split_and!; [done..|].
  clear -Hf. revert m Hf. induction inp as [|b inp IH]; intros m; simpl.
  - by intros [= <-].
  - destruct (writeByte m b) as [[r m1]| |] eqn:Hw; bind; [|done..].
    intros Hf. rewrite (IH _ Hf). by eapply writeByte_sequence.
Qed.

Lemma detectors_independent_witness :
  length [SequenceDetector (bytes "aa") 0; SequenceDetector (bytes "aaa") 1]
    = length (matchers (newMatcher [bytes "aa"; bytes "aaa"])) ∧
  ∀ j m, matchers (newMatcher [bytes "aa"; bytes "aaa"]) !! j = Some m →
         ∃ m', [SequenceDetector (bytes "aa") 0;
                SequenceDetector (bytes "aaa") 1] !! j = Some m' ∧
               feed m (bytes "aaaa") = Ret m' ∧
               sequence m' = sequence m.
Proof.
  apply (detectors_independent (newMatcher [bytes "aa"; bytes "aaa"])
           (bytes "aaaa") {[0 := 3; 2 := 2]}
           (Matcher [SequenceDetector (bytes "aa") 0;
                     SequenceDetector (bytes "aaa") 1] 4)).
  vm_compute. reflexivity.
Defined.

(** X6.  In every state of the matcher, a [write] of two chunks joined is the
    [write] of the first followed by the [write] of the second, with the
    two tables merged keeping the longer match; it panics exactly when one
    of the two calls does. *)
Theorem write_concatenation (mb : matcher) (inp1 inp2 : list byte) :
  write mb (inp1 ++ inp2) =
    '(t1, mb1) ← write mb inp1;
    '(t2, mb2) ← write mb1 inp2;
    Ret (longest t1 t2, mb2).
Proof. apply write_app. Qed.

(** X7.  [write] panics exactly when the chunk is not empty and some detector
    has its cursor outside its pattern, which is the case of every
    detector of an empty pattern. *)
Theorem write_panics_iff (mb : matcher) (inp : list byte) :
  write mb inp = Panic ↔
    inp ≠ [] ∧
    Exists (fun m => (length (sequence m) ≤ currentIndex m)%nat) (matchers mb).
Proof.
  unfold write. destruct inp as [|b inp]; simpl.
  { split; [done|]. by intros [? _]. }
  split.
  - intros Hp. split; [done|].
    destruct (write_matchers _ 0 b _ ∅) as [[t1 ms1]| |] eqn:Hstep.
    + exfalso. cbn [mbind outcome_bind] in Hp.
      destruct (decide (Forall detector_ok (matchers mb))) as [Hall|Hex].
      * destruct (write_matchers_Ret (matcher_currentIndex mb) 0 b _ Hall)
          as (t1' & ms1' & Hstep' & _ & Hok1 & _).
        rewrite Hstep in Hstep'. injection Hstep' as <- <-.
        destruct (write_loop_Ret (matcher_currentIndex mb) 1 inp ms1 Hok1)
          as (t2 & ms2 & Hloop & _).
        rewrite write_loop_longest, Hloop in Hp. done.
      * apply not_Forall_Exists in Hex; [|apply _].
        eapply Exists_impl in Hex;
          [apply (write_matchers_Panic_iff (matcher_currentIndex mb) 0 b _ ∅)
             in Hex; congruence|].
        intros m Hm. apply Nat.nlt_ge. exact Hm.
    + by eapply write_matchers_Panic_iff.
    + by bind.
  - intros [_ Hex].
    apply (write_matchers_Panic_iff (matcher_currentIndex mb) 0 b _ ∅) in Hex.
    by rewrite Hex.
Qed.

Lemma write_feed mb inp t mb' :
  write mb inp = Ret (t, mb') →
  Forall2 (fun m m' => feed m inp = Ret m') (matchers mb) (matchers mb').
Proof.
  unfold write.
  destruct (write_loop _ _ _ _ _) as [[t1 ms1]| |] eqn:Hloop; bind; [|done..].
  intros [= <- <-]. simpl. by eapply write_loop_feed.
Qed.

Lemma fed_elements ms ms' inp m' :
  Forall2 (fun m m' => feed m inp = Ret m') ms ms' →
  m' ∈ ms' ↔ ∃ m, m ∈ ms ∧ feed m inp = Ret m'.
Proof.
  intros Hfed. split.
  - intros [j Hj]%list_elem_of_lookup_1.
    destruct (Forall2_lookup_r _ _ _ _ _ Hfed Hj) as (m & Hm & Hf).
    exists m. split; [by eapply list_elem_of_lookup_2|done].
  - intros (m & [j Hj]%list_elem_of_lookup_1 & Hf).
    destruct (Forall2_lookup_l _ _ _ _ _ Hfed Hj) as (m2 & Hm2 & Hf2).
    rewrite Hf in Hf2. injection Hf2 as <-. by eapply list_elem_of_lookup_2.
Qed.

Lemma fed_fixed ms ms' inp :
  Forall2 (fun m m' => feed m inp = Ret m') ms ms' →
  (∀ m, m ∈ ms → feed m inp = Ret m) → ms' = ms.
Proof.
  induction 1 as [|m m' ms ms' Hf Hfed IH]; intros Hfix; [done|]. f_equal.
  - rewrite (Hfix m) in Hf by (by left). by injection Hf.
  - apply IH. intros m0 Hm0. apply Hfix. by right.
Qed.

Lemma findShift_rest s : findShift (SequenceDetector s 0) = Ret 0%nat.
Proof. done. Qed.

(** At cursor 0, a byte that is not the first byte of the pattern is
    dropped and the detector stays as it is. *)
Lemma writeByte_rest s b c :
  s !! 0%nat = Some c → c ≠ b →
  writeByte (SequenceDetector s 0) b = Ret (false, SequenceDetector s 0).
Proof.
  intros Hc Hne. rewrite (writeByte_miss _ b c) by done.
  unfold shiftCursor. rewrite findShift_rest. bind. simpl.
  unfold index. rewrite Hc. bind. by rewrite decide_False.
Qed.

Lemma feed_rest s inp :
  s ≠ [] → (∀ b, b ∈ inp → s !! 0%nat ≠ Some b) →
  feed (SequenceDetector s 0) inp = Ret (SequenceDetector s 0).
Proof.
  intros Hs. induction inp as [|b inp IH]; intros Hno; simpl; [done|].
  destruct s as [|c s]; [done|].
  rewrite (writeByte_rest _ b c); [|done|].
  - bind. apply IH. intros b' Hb'. apply Hno. by right.
  - intros ->. by apply (Hno b); [left|].
Qed.

(** From cursor 0, the first [k] bytes of the pattern take the cursor to
    [k]. *)
Lemma feed_prefix s k :
  (k < length s)%nat →
  feed (SequenceDetector s 0) (take k s) = Ret (SequenceDetector s k).
Proof.
  induction k as [|k IH]; intros Hk; [by rewrite take_0|].
  destruct (lookup_lt_is_Some_2 s k) as [x Hx]; [lia|].
  rewrite (take_S_r _ _ _ Hx), feed_app, IH by lia. bind. simpl.
  rewrite (writeByte_hit _ x) by done. bind. unfold advance. simpl.
  by rewrite decide_False by lia.
Qed.

(** From cursor 0, the whole pattern takes the detector back to cursor 0. *)
Lemma feed_pattern s :
  s ≠ [] → feed (SequenceDetector s 0) s = Ret (SequenceDetector s 0).
Proof.
  intros Hs. assert (0 < length s)%nat by (destruct s; simpl; [done|lia]).
  destruct (lookup_lt_is_Some_2 s (length s - 1)) as [x Hx]; [lia|].
  transitivity (feed (SequenceDetector s 0) (take (length s - 1) s ++ [x])).
  { f_equal. rewrite <- (take_S_r _ _ _ Hx).
    replace (S (length s - 1)) with (length s) by lia.
    by rewrite take_ge. }
  rewrite feed_app, feed_prefix by lia. bind. simpl.
  rewrite (writeByte_hit _ x) by done. bind. unfold advance. simpl.
  by rewrite decide_True by lia.
Qed.

Lemma reports_pattern_end s rest :
  s ≠ [] →
  reports (SequenceDetector s 0) (s ++ rest) (length s - 1).
Proof.
  intros Hs. assert (0 < length s)%nat by (destruct s; simpl; [done|lia]).
  destruct (lookup_lt_is_Some_2 s (length s - 1)) as [x Hx]; [lia|].
  exists x, (SequenceDetector s (length s - 1)), (SequenceDetector s 0).
  split_and!.
  - by rewrite lookup_app_l by lia.
  - rewrite take_app_le by lia. apply feed_prefix. lia.
  - apply writeByte_true; [unfold detector_ok; simpl; lia|].
    simpl. split_and!; [lia|done..].
Qed.

Lemma matchIndex_pattern_end cur s :
  s ≠ [] → int64_range cur →
  matchIndex cur (length s - 1) (SequenceDetector s 0) = cur.
Proof.
  intros Hs Hr. assert (0 < length s)%nat by (destruct s; simpl; [done|lia]).
  unfold matchIndex. simpl.
  replace (Z.of_nat (length s - 1) - Z.of_nat (length s) + 1) with 0 by lia.
  by apply add64_0_r.
Qed.

(** X8.  Bytes that cannot end a pattern give no match: when no byte of the
    chunk is the last byte of any pattern, the returned table is empty,
    whatever the cursors are. *)
Theorem no_last_byte_no_match (mb : matcher) (inp : list byte) :
  Forall detector_ok (matchers mb) →
  (∀ m b, m ∈ matchers mb → b ∈ inp → last (sequence m) ≠ Some b) →
  ∃ mb', write mb inp = Ret (∅, mb').
Proof.
  intros Hok Hno.
  destruct (write_Ret mb inp Hok) as (t & mb' & Hw & _ & _ & Hsound & _).
  exists mb'. rewrite Hw. do 2 f_equal. apply map_empty. intros o.
  destruct (t !! o) as [l|] eqn:Hl; [exfalso|done].
  destruct (Hsound _ _ Hl) as (j & m & i & Hj & Hr & _).
  pose proof Hr as (b & _ & _ & Hb & _).
  destruct (reports_last_step m inp i) as (_ & _ & _ & Hlast).
  { by eapply Forall_lookup_1. }
  { done. }
  apply (Hno m b); [by eapply list_elem_of_lookup_2..|]. congruence.
Qed.

Lemma no_last_byte_no_match_witness :
  ∃ mb', write (Matcher [SequenceDetector (bytes "foofoobar") 6] 6)
           (bytes "fooba") = Ret (∅, mb').
Proof.
  apply (no_last_byte_no_match
           (Matcher [SequenceDetector (bytes "foofoobar") 6] 6)
           (bytes "fooba")).
  - constructor; [unfold detector_ok; simpl; lia|constructor].
  - intros m b ->%list_elem_of_singleton Hb Hlast.
    vm_compute in Hlast. injection Hlast as <-. revert Hb.
    apply (proj1 (bool_decide_eq_false _)). vm_compute. reflexivity.
Defined.

(** X9.  Bytes that cannot begin a pattern leave a matcher at rest untouched:
    when every detector is at cursor 0 and no byte of the chunk is the
    first byte of any pattern, [write] returns the empty table and changes
    nothing but the stream offset. *)
Theorem resting_matcher_untouched (mb : matcher) (inp : list byte) :
  Forall (fun m => currentIndex m = 0%nat ∧ sequence m ≠ []) (matchers mb) →
  (∀ m b, m ∈ matchers mb → b ∈ inp → sequence m !! 0%nat ≠ Some b) →
  write mb inp =
    Ret (∅, Matcher (matchers mb)
              (add64 (matcher_currentIndex mb) (Z.of_nat (length inp)))).
Proof.
  intros Hrest Hno.
  assert (Forall detector_ok (matchers mb)) as Hok.
  { eapply Forall_impl; [exact Hrest|]. intros [s c] [Hc Hs]. simpl in *.
    subst c. unfold detector_ok. simpl. destruct s; [done|simpl; lia]. }
  assert (∀ m, m ∈ matchers mb → feed m inp = Ret m) as Hfeed.
  { intros [s c] Hm. pose proof (proj1 (Forall_forall _ _) Hrest _ Hm) as [Hc Hs].
    simpl in *. subst c. apply feed_rest; [done|].
    intros b Hb. by apply (Hno _ b Hm). }
  destruct (write_Ret mb inp Hok) as (t & mb' & Hw & _ & Hcur & Hsound & _).
  pose proof (write_feed _ _ _ _ Hw) as Hfed.
  rewrite Hw. do 2 f_equal.
  - apply map_empty. intros o.
    destruct (t !! o) as [l|] eqn:Hl; [exfalso|done].
    destruct (Hsound _ _ Hl) as (j & m & i & Hj & Hr & _).
    apply list_elem_of_lookup_2 in Hj.
    destruct Hr as (b & mi & m' & Hb & Hf & Hwb).
    destruct m as [s c].
    pose proof (proj1 (Forall_forall _ _) Hrest _ Hj) as [Hc Hs].
    simpl in *. subst c.
    rewrite feed_rest in Hf; [|done|].
    + injection Hf as <-.
      apply writeByte_true in Hwb as (_ & Hb0 & _);
        [|by apply (proj1 (Forall_forall _ _) Hok _ Hj)].
      simpl in Hb0. apply (Hno _ b Hj); [|done].
      by eapply list_elem_of_lookup_2.
    + intros b' [k [Hk _]]%elem_of_take. apply (Hno _ b' Hj).
      by eapply list_elem_of_lookup_2.
  - destruct mb' as [ms' cur']. simpl in *. subst cur'. f_equal.
    by eapply fed_fixed.
Qed.

Lemma resting_matcher_untouched_witness :
  write (newMatcher [bytes "foo"; bytes "bar"]) (bytes "oar") =
    Ret (∅, Matcher (matchers (newMatcher [bytes "foo"; bytes "bar"]))
              (add64 0 (Z.of_nat (length (bytes "oar"))))).
Proof.
  apply (resting_matcher_untouched (newMatcher [bytes "foo"; bytes "bar"])
           (bytes "oar")).
  - repeat constructor; done.
  - intros m b Hm Hb Hfirst. revert Hb.
    apply (proj1 (bool_decide_eq_false _)).
    apply elem_of_cons in Hm as [->|Hm];
      [|apply list_elem_of_singleton in Hm as ->];
      vm_compute in Hfirst; injection Hfirst as <-; vm_compute; reflexivity.
Defined.

(** X10.  An occurrence of a pattern that starts where its detector is at
    cursor 0 is always reported: the returned table has the current stream
    offset, with the length of the pattern or of a longer match there. *)
Theorem pattern_prefix_reported (mb : matcher) (m : sequenceDetector)
    (rest : list byte) :
  Forall detector_ok (matchers mb) →
  m ∈ matchers mb → currentIndex m = 0%nat →
  int64_range (matcher_currentIndex mb) →
  ∃ t mb' l,
    write mb (sequence m ++ rest) = Ret (t, mb') ∧
    t !! matcher_currentIndex mb = Some l ∧
    Z.of_nat (length (sequence m)) <= l.
Proof.
  intros Hok Hm Hc Hr.
  destruct (write_Ret mb (sequence m ++ rest) Hok)
    as (t & mb' & Hw & _ & _ & _ & Hcompl).
  destruct m as [s c]. simpl in *. subst c.
  assert (s ≠ []) as Hs.
  { pose proof (proj1 (Forall_forall _ _) Hok _ Hm) as Hlt.
    unfold detector_ok in Hlt. simpl in Hlt. destruct s; [simpl in Hlt; lia|done]. }
  apply list_elem_of_lookup_1 in Hm as [j Hj].
  destruct (Hcompl (matcher_currentIndex mb) (Z.of_nat (length s)))
    as (l & Hl & Hle).
  { exists j, (SequenceDetector s 0), (length s - 1)%nat.
    split_and!; [done|by apply reports_pattern_end| |done].
    by rewrite matchIndex_pattern_end. }
  by exists t, mb', l.
Qed.

Lemma pattern_prefix_reported_witness :
  ∃ t mb' l,
    write (newMatcher [bytes "aa"; bytes "aaa"])
      (sequence (SequenceDetector (bytes "aa") 0) ++ bytes "ab")
      = Ret (t, mb') ∧
    t !! 0 = Some l ∧
    Z.of_nat (length (sequence (SequenceDetector (bytes "aa") 0))) <= l.
Proof.
  apply (pattern_prefix_reported (newMatcher [bytes "aa"; bytes "aaa"])
           (SequenceDetector (bytes "aa") 0) (bytes "ab")).
  - repeat constructor.
  - apply list_elem_of_here.
  - reflexivity.
  - simpl. unfold int64_range. lia.
Defined.

(** X11.  A matcher for one pattern that is given exactly the pattern returns
    the table with the one entry (stream offset, length of the pattern),
    and its detector is at cursor 0 again. *)
Theorem single_pattern_exact (p : list byte) (cur : Z) :
  p ≠ [] → int64_range cur →
  write (Matcher [SequenceDetector p 0] cur) p =
    Ret ({[cur := Z.of_nat (length p)]},
         Matcher [SequenceDetector p 0] (add64 cur (Z.of_nat (length p)))).
Proof.
  intros Hp Hr. assert (0 < length p)%nat by (destruct p; simpl; [done|lia]).
  assert (Forall detector_ok [SequenceDetector p 0]) as Hok.
  { constructor; [unfold detector_ok; simpl; lia|constructor]. }
  destruct (write_Ret (Matcher [SequenceDetector p 0] cur) p Hok)
    as (t & mb' & Hw & _ & Hcur & Htab).
  pose proof (write_feed _ _ _ _ Hw) as Hfed.
  rewrite Hw. do 2 f_equal.
  - apply (table_of_unique _ _ _ Htab).
    eapply table_of_ext; [apply table_of_singleton|].
    intros o l. simpl. split.
    + intros [-> ->]. exists 0%nat, (SequenceDetector p 0), (length p - 1)%nat.
      split_and!; [done| | |done].
      * rewrite <- (app_nil_r p) at 2. by apply reports_pattern_end.
      * by rewrite matchIndex_pattern_end.
    + intros (j & m & i & Hj & Hrep & -> & ->).
      apply list_lookup_singleton_Some in Hj as [-> <-].
      destruct (reports_cursor _ _ _ (Forall_inv Hok) Hrep) as [_ Hi].
      destruct (reports_last_step _ _ _ (Forall_inv Hok) Hrep)
        as (mi & Hf & Hlen & _).
      rewrite feed_prefix in Hf by done. injection Hf as <-.
      simpl in Hlen. split; [|done].
      replace i with (length p - 1)%nat by lia.
      by rewrite matchIndex_pattern_end.
  - destruct mb' as [ms' cur']. simpl in *. subst cur'. f_equal.
    inversion Hfed as [|? m' ? ? Hf Hnil]; subst. inversion Hnil; subst.
    f_equal. rewrite feed_pattern in Hf by done. by injection Hf as <-.
Qed.

Lemma single_pattern_exact_witness :
  write (Matcher [SequenceDetector (bytes "foofoobar") 0] 12)
    (bytes "foofoobar") =
    Ret ({[12 := Z.of_nat (length (bytes "foofoobar"))]},
         Matcher [SequenceDetector (bytes "foofoobar") 0]
           (add64 12 (Z.of_nat (length (bytes "foofoobar"))))).
Proof.
  apply (single_pattern_exact (bytes "foofoobar") 12).
  - done.
  - unfold int64_range. lia.
Defined.

Lemma write_same_detectors mb1 mb2 inp :
  Forall detector_ok (matchers mb1) → Forall detector_ok (matchers mb2) →
  matcher_currentIndex mb1 = matcher_currentIndex mb2 →
  (∀ m, m ∈ matchers mb1 ↔ m ∈ matchers mb2) →
  ∃ t mb1' mb2',
    write mb1 inp = Ret (t, mb1') ∧ write mb2 inp = Ret (t, mb2') ∧
    Forall detector_ok (matchers mb1') ∧ Forall detector_ok (matchers mb2') ∧
    matcher_currentIndex mb1' = matcher_currentIndex mb2' ∧
    (∀ m, m ∈ matchers mb1' ↔ m ∈ matchers mb2').
Proof.
  intros Hok1 Hok2 Hcur Hsame.
  destruct (write_Ret mb1 inp Hok1) as (t1 & mb1' & Hw1 & Hok1' & Hc1 & Ht1).
  destruct (write_Ret mb2 inp Hok2) as (t2 & mb2' & Hw2 & Hok2' & Hc2 & Ht2).
  assert (t2 = t1) as ->.
  { apply (table_of_unique _ _ _ Ht2). eapply table_of_ext; [exact Ht1|].
    intros o l. rewrite Hcur.
    split; intros (j & m & i & Hj%list_elem_of_lookup_2 & Hrest);
      apply Hsame in Hj; apply list_elem_of_lookup_1 in Hj as [j' Hj'];
      by exists j', m, i. }
  exists t1, mb1', mb2'. split_and!; [done..|congruence|].
  intros m'.
  rewrite (fed_elements _ _ _ _ (write_feed _ _ _ _ Hw1)).
  rewrite (fed_elements _ _ _ _ (write_feed _ _ _ _ Hw2)).
  split; intros (m & Hm & Hf); exists m; (split; [by apply Hsame|done]).
Qed.

(** X12.  The tables that a matcher returns depend only on the set of its
    patterns: two lists with the same patterns, in any order and with any
    repetitions, give the same table in every call. *)
Theorem patterns_as_set (sequences1 sequences2 chunks : list (list byte)) :
  Forall (fun p => p ≠ []) sequences1 →
  (∀ p, p ∈ sequences1 ↔ p ∈ sequences2) →
  ∃ ts mb1 mb2,
    writes (newMatcher sequences1) chunks = Ret (ts, mb1) ∧
    writes (newMatcher sequences2) chunks = Ret (ts, mb2) ∧
    matcher_currentIndex mb1 = matcher_currentIndex mb2.
Proof.
  intros Hne1 Hsame.
  assert (Forall (fun p => p ≠ []) sequences2) as Hne2.
  { apply Forall_forall. intros p Hp%Hsame.
    by apply (proj1 (Forall_forall _ _) Hne1). }
  pose proof (newMatcher_ok _ Hne1) as Hok1.
  pose proof (newMatcher_ok _ Hne2) as Hok2.
  assert (∀ m, m ∈ matchers (newMatcher sequences1)
               ↔ m ∈ matchers (newMatcher sequences2)) as Hms.
  { intros m. unfold newMatcher. simpl. rewrite !list_elem_of_fmap.
    split; intros (p & -> & Hp); exists p; (split; [done|by apply Hsame]). }
  assert (matcher_currentIndex (newMatcher sequences1)
          = matcher_currentIndex (newMatcher sequences2)) as Hcur by done.
  revert Hok1 Hok2 Hms Hcur.
  generalize (newMatcher sequences1) (newMatcher sequences2).
  induction chunks as [|c chunks IH]; intros mb1 mb2 Hok1 Hok2 Hms Hcur; simpl.
  - by exists [], mb1, mb2.
  - destruct (write_same_detectors mb1 mb2 c Hok1 Hok2 Hcur Hms)
      as (t & mb1' & mb2' & -> & -> & Hok1' & Hok2' & Hcur' & Hms'). bind.
    destruct (IH mb1' mb2' Hok1' Hok2' Hms' Hcur')
      as (ts & mb1'' & mb2'' & -> & -> & Hcur''). bind.
    by exists (t :: ts), mb1'', mb2''.
Qed.

Lemma patterns_as_set_witness :
  ∃ ts mb1 mb2,
    writes (newMatcher [bytes "aa"; bytes "aaa"]) [bytes "aa"; bytes "aa"]
      = Ret (ts, mb1) ∧
    writes (newMatcher [bytes "aaa"; bytes "aa"; bytes "aaa"])
      [bytes "aa"; bytes "aa"] = Ret (ts, mb2) ∧
    matcher_currentIndex mb1 = matcher_currentIndex mb2.
Proof.
  apply (patterns_as_set [bytes "aa"; bytes "aaa"]
           [bytes "aaa"; bytes "aa"; bytes "aaa"] [bytes "aa"; bytes "aa"]).
  - repeat constructor; done.
  - intros p. rewrite !elem_of_cons, !elem_of_nil. tauto.
Defined.

Lemma writes_feed mb chunks ts mb' :
  writes mb chunks = Ret (ts, mb') →
  Forall2 (fun m m' => feed m (concat chunks) = Ret m')
    (matchers mb) (matchers mb').
Proof.
  revert mb ts. induction chunks as [|c chunks IH]; intros mb ts; simpl.
  - intros [= <- <-]. by apply Forall2_same_length_lookup_2; [|naive_solver].
  - destruct (write mb c) as [[t mb1]| |] eqn:Hw; bind; [|done..].
    destruct (writes mb1 chunks) as [[ts1 mb2]| |] eqn:Hws; bind; [|done..].
    intros [= <- <-]. apply write_feed in Hw. apply IH in Hws.
    clear -Hw Hws. revert Hws. generalize (matchers mb2).
    induction Hw as [|m m1 ms ms1 Hf Hw IHw]; intros ms2 Hws.
    + inversion Hws. constructor.
    + inversion Hws as [|? m2 ? ms2' Hf2 Hrest]; subst.
      constructor; [|by apply IHw]. by rewrite feed_app, Hf.
Qed.

(** X13.  Every match reported by a matcher that started on non-empty patterns
    lies inside the stream read so far, and ends in the chunk of the call
    that reports it: with [n] bytes written before the call and a chunk
    [c], every entry (offset, length) of the returned table has
    0 <= offset and n < offset + length <= n + len(c), and the length is
    that of one of the patterns. *)
Theorem offsets_within_stream (sequences chunks : list (list byte))
    (c : list byte) :
  Forall (fun p => p ≠ []) sequences →
  Z.of_nat (total_length chunks) + Z.of_nat (length c) < 2 ^ 63 →
  ∃ ts mb t mb',
    writes (newMatcher sequences) chunks = Ret (ts, mb) ∧
    write mb c = Ret (t, mb') ∧
    ∀ o l, t !! o = Some l →
           0 <= o ∧
           Z.of_nat (total_length chunks) < o + l
             <= Z.of_nat (total_length chunks) + Z.of_nat (length c) ∧
           ∃ p, p ∈ sequences ∧ l = Z.of_nat (length p).
Proof.
  intros Hne Hbound. pose proof (newMatcher_ok _ Hne) as Hok0.
  destruct (writes_Ret _ chunks Hok0) as (ts & mb & Hws & Hok).
  destruct (write_Ret mb c Hok) as (t & mb' & Hw & _ & _ & Hsound & _).
  exists ts, mb, t, mb'. split_and!; [done..|].
  assert (matcher_currentIndex mb = Z.of_nat (total_length chunks)) as Hcur.
  { assert (int64_range (matcher_currentIndex (newMatcher sequences)))
      as Hr0 by (simpl; unfold int64_range; lia).
    rewrite (writes_currentIndex _ _ _ _ Hr0 Hws). simpl. unfold add64.
    rewrite wrap64_id; [lia|]. unfold int64_range. lia. }
  intros o l Hl.
  destruct (Hsound _ _ Hl) as (j & m & i & Hj & Hr & -> & ->).
  destruct (Forall2_lookup_r _ _ _ _ _ (writes_feed _ _ _ _ Hws) Hj)
    as (m0 & Hj0 & Hf0).
  unfold newMatcher in Hj0. simpl in Hj0.
  rewrite list_lookup_fmap in Hj0.
  destruct (sequences !! j) as [p|] eqn:Hp; [|done]. injection Hj0 as <-.
  pose proof (proj1 (Forall_forall _ _) Hne p (list_elem_of_lookup_2 _ _ _ Hp))
    as Hpne.
  destruct (feed_Ret (SequenceDetector p 0) (concat chunks))
    as (m1 & Hf1 & Hseq & _ & Hle).
  { unfold detector_ok. simpl. destruct p; [done|simpl; lia]. }
  rewrite Hf0 in Hf1. injection Hf1 as <-.
  simpl in Hseq, Hle. rewrite length_concat_total in Hle.
  destruct (reports_cursor m c i) as [Hlen Hi].
  { by eapply Forall_lookup_1. }
  { done. }
  rewrite Hseq in Hlen |- *.
  assert (matchIndex (matcher_currentIndex mb) i m =
          Z.of_nat (total_length chunks) + Z.of_nat i
          - Z.of_nat (length p) + 1) as ->.
  { unfold matchIndex, add64. rewrite Hcur, Hseq.
    rewrite wrap64_id; [lia|]. unfold int64_range. lia. }
  split_and!; [lia..|].
  exists p. split; [by eapply list_elem_of_lookup_2|done].
Qed.

Lemma offsets_within_stream_witness :
  ∃ ts mb t mb',
    writes (newMatcher [bytes "ab"]) [bytes "aba"] = Ret (ts, mb) ∧
    write mb (bytes "b") = Ret (t, mb') ∧
    ∀ o l, t !! o = Some l →
           0 <= o ∧
           Z.of_nat (total_length [bytes "aba"]) < o + l
             <= Z.of_nat (total_length [bytes "aba"])
                + Z.of_nat (length (bytes "b")) ∧
           ∃ p, p ∈ [bytes "ab"] ∧ l = Z.of_nat (length p).
Proof.
  apply (offsets_within_stream [bytes "ab"] [bytes "aba"] (bytes "b")).
  - repeat constructor; done.
  - simpl. lia.
Defined.

(** ** Patterns whose first byte does not come back *)

Lemma suffix_take_snoc (p s : list byte) k x b :
  p !! k = Some x →
  take (S k) p `suffix_of` s ++ [b] ↔ x = b ∧ take k p `suffix_of` s.
Proof.
  intros Hx. rewrite (take_S_r _ _ _ Hx). split.
  - intros H. split; [by eapply suffix_snoc_inv_1|by eapply suffix_snoc_inv_2].
  - intros [-> H]. by apply suffix_snoc.
Qed.

Lemma suffix_take_nil (p : list byte) k :
  (1 ≤ k ≤ length p)%nat → ¬ take k p `suffix_of` [].
Proof.
  intros Hk Hs%suffix_nil_inv. apply (f_equal length) in Hs.
  rewrite length_take in Hs. simpl in Hs. lia.
Qed.

Lemma first_byte_unique_suffixes (p s : list byte) k1 k2 :
  first_byte_unique p → (1 ≤ k1 < k2)%nat → (k2 ≤ length p)%nat →
  take k1 p `suffix_of` s → take k2 p `suffix_of` s → False.
Proof.
  intros Hu Hk Hk2 H1 H2.
  destruct (lookup_lt_is_Some_2 p 0) as [c Hc]; [lia|].
  destruct (suffix_weak_total _ _ _ H1 H2) as [H12|H21].
  - pose proof (suffix_lookup_lt (take k1 p) (take k2 p) 0) as Hl.
    rewrite !length_take in Hl.
    specialize (Hl ltac:(lia) H12).
    rewrite !lookup_take_lt in Hl by lia. rewrite Hc in Hl.
    apply (Hu (0 + (k2 `min` length p - k1 `min` length p))%nat c);
      [lia|done..].
  - apply suffix_length in H21. rewrite !length_take in H21. lia.
Qed.

Lemma first_byte_unique_findShift p c :
  first_byte_unique p → (c ≤ length p)%nat →
  findShift (SequenceDetector p c) = Ret c.
Proof.
  intros Hu Hc.
  destruct (findShift_Ret (SequenceDetector p c) Hc) as (s & -> & Hle & Hpos).
  simpl in *. f_equal. destruct (decide (c = 0)%nat) as [->|Hnz]; [lia|].
  destruct (Hpos ltac:(lia)) as (Hs1 & Hov & _).
  destruct (decide (s = c)) as [|Hne]; [done|]. exfalso.
  unfold overlap, slice in Hov. rewrite drop_0, Nat.sub_0_r in Hov.
  destruct (lookup_lt_is_Some_2 p 0) as [x Hx]; [lia|].
  apply (f_equal (fun l => l !! 0%nat)) in Hov.
  rewrite !lookup_take_lt, lookup_drop, Nat.add_0_r in Hov by lia.
  rewrite Hx in Hov. by apply (Hu s x).
Qed.

Lemma tracks_nil p : p ≠ [] → tracks p [] 0.
Proof.
  intros Hp. split_and!.
  - destruct p; simpl; [done|lia].
  - by rewrite take_0.
  - intros k Hk. apply suffix_take_nil. lia.
Qed.

(** One byte: the cursor keeps tracking the stream, and the detector
    answers true exactly when the stream now ends with the pattern. *)
Lemma tracks_writeByte p s c b :
  first_byte_unique p → tracks p s c →
  ∃ r c', writeByte (SequenceDetector p c) b
            = Ret (r, SequenceDetector p c') ∧
          tracks p (s ++ [b]) c' ∧
          (r = true ↔ p `suffix_of` s ++ [b]).
Proof.
  intros Hu (Hc & Hsuf & Hmax).
  assert (∀ k, (c + 1 < k ≤ length p)%nat →
               ¬ take k p `suffix_of` s ++ [b]) as Hlong.
  { intros k Hk Hks. destruct k as [|k]; [lia|].
    destruct (lookup_lt_is_Some_2 p k) as [x Hx]; [lia|].
    pose proof (proj1 (suffix_take_snoc _ _ _ _ _ Hx) Hks) as [_ Hks'].
    by apply (Hmax k); [lia|]. }
  assert (p !! 0%nat ≠ Some b →
          ∀ k, (1 ≤ k ≤ length p)%nat → k ≠ S c →
               ¬ take k p `suffix_of` s ++ [b]) as Hmiss.
  { intros Hfirst k Hk Hkc Hks. destruct k as [|k]; [lia|].
    destruct (lookup_lt_is_Some_2 p k) as [x Hx]; [lia|].
    pose proof (proj1 (suffix_take_snoc _ _ _ _ _ Hx) Hks) as [-> Hks'].
    destruct (decide (k = 0)%nat) as [->|Hk0]; [done|].
    destruct (decide (k < c)%nat).
    - by apply (first_byte_unique_suffixes p s k c Hu); [lia..| |].
    - by apply (Hmax k); [lia|]. }
  destruct (lookup_lt_is_Some_2 p c Hc) as [x Hx].
  destruct (decide (x = b)) as [->|Hne].
  - rewrite (writeByte_hit _ b) by done. unfold advance. simpl.
    assert (take (S c) p `suffix_of` s ++ [b]) as Hnew.
    { by apply (suffix_take_snoc _ _ _ _ _ Hx). }
    case_decide as Hlen.
    + exists true, 0%nat. simpl in Hlen. rewrite Hlen, take_ge in Hnew by lia.
      split_and!; [done| |done].
      split_and!; [lia|rewrite take_0; apply suffix_nil|].
      intros k Hk Hks.
      by apply (first_byte_unique_suffixes p (s ++ [b]) k (length p) Hu);
        [lia..| |rewrite take_ge by lia].
    + exists false, (S c). split_and!; [done| |].
      * split_and!; [lia|done|]. intros k Hk. apply Hlong. lia.
      * split; [done|]. intros Hfull. exfalso.
        apply (Hlong (length p)); [lia|]. by rewrite take_ge by lia.
  - rewrite (writeByte_miss _ b x) by done. unfold shiftCursor.
    rewrite first_byte_unique_findShift by (simpl; lia || done). bind. simpl.
    rewrite Nat.sub_diag.
    destruct (lookup_lt_is_Some_2 p 0) as [y Hy]; [lia|].
    unfold index. rewrite Hy. bind.
    assert (p `suffix_of` s ++ [b] → False) as Hnofull.
    { intros Hfull. destruct (decide (length p = S c)) as [Hlen|Hlen].
      - rewrite <- (take_ge p (S c)) in Hfull by lia.
        pose proof (proj1 (suffix_take_snoc _ _ _ _ _ Hx) Hfull) as [? _]. done.
      - apply (Hlong (length p)); [lia|]. by rewrite take_ge by lia. }
    case_decide as Hyb.
    + subst y. unfold advance. simpl.
      assert (c ≠ 0)%nat by (intros ->; congruence).
      rewrite decide_False by lia. exists false, 1%nat.
      split_and!; [done| |].
      * split_and!; [lia| |].
        -- apply (suffix_take_snoc p s 0 b b Hy). split; [done|].
           rewrite take_0. apply suffix_nil.
        -- intros k Hk Hks. destruct k as [|k]; [lia|].
           destruct (lookup_lt_is_Some_2 p k) as [z Hz]; [lia|].
           pose proof (proj1 (suffix_take_snoc _ _ _ _ _ Hz) Hks) as [-> _].
           by apply (Hu k b); [lia|..].
      * split; [done|]. intros Hfull. by exfalso.
    + exists false, 0%nat. split_and!; [done| |].
      * split_and!; [lia|rewrite take_0; apply suffix_nil|].
        intros k Hk. destruct (decide (k = S c)) as [->|Hkc].
        -- intros Hks. pose proof (proj1 (suffix_take_snoc _ _ _ _ _ Hx) Hks) as [? _].
           done.
        -- apply Hmiss; [congruence|lia|done].
      * split; [done|]. intros Hfull. by exfalso.
Qed.

Lemma tracks_feed p s :
  p ≠ [] → first_byte_unique p →
  ∃ c, feed (SequenceDetector p 0) s = Ret (SequenceDetector p c) ∧
       tracks p s c.
Proof.
  intros Hp Hu. induction s as [|b s IH] using rev_ind.
  - exists 0%nat. split; [done|by apply tracks_nil].
  - destruct IH as (c & Hf & Htr).
    destruct (tracks_writeByte p s c b Hu Htr) as (r & c' & Hw & Htr' & _).
    exists c'. split; [|done]. rewrite feed_app, Hf. bind. simpl.
    by rewrite Hw.
Qed.

Lemma reports_occurs p inp i :
  p ≠ [] → first_byte_unique p →
  reports (SequenceDetector p 0) inp i ↔ occurs_at p inp i.
Proof.
  intros Hp Hu. destruct (tracks_feed p (take i inp) Hp Hu) as (c & Hf & Htr).
  split.
  - intros (b & mi & m' & Hb & Hfi & Hw).
    rewrite Hf in Hfi. injection Hfi as <-.
    destruct (tracks_writeByte p _ c b Hu Htr) as (r & c' & Hw' & _ & Hr).
    rewrite Hw in Hw'. injection Hw' as <- _.
    split; [by eapply lookup_lt_Some|].
    rewrite (take_S_r _ _ _ Hb). by apply Hr.
  - intros [Hi Hocc].
    destruct (lookup_lt_is_Some_2 inp i Hi) as [b Hb].
    destruct (tracks_writeByte p _ c b Hu Htr) as (r & c' & Hw' & _ & Hr).
    rewrite (take_S_r _ _ _ Hb) in Hocc. apply Hr in Hocc as ->.
    by exists b, (SequenceDetector p c), (SequenceDetector p c').
Qed.

(** X14.  For a pattern whose first byte occurs nowhere else in it, a detector
    that starts at cursor 0 reports a match on a byte exactly when an
    occurrence of the pattern ends at that byte. *)
Theorem detector_exact (p inp : list byte) (i : nat) :
  p ≠ [] → first_byte_unique p →
  reports (SequenceDetector p 0) inp i ↔ occurs_at p inp i.
Proof. apply reports_occurs. Qed.

Lemma first_byte_unique_foo : first_byte_unique (bytes "foo").
Proof.
  intros o b Ho Hb Hf. vm_compute in Hf. injection Hf as <-.
  destruct o as [|[|[|o]]]; [lia|discriminate..].
Qed.

Lemma first_byte_unique_bar : first_byte_unique (bytes "bar").
Proof.
  intros o b Ho Hb Hf. vm_compute in Hf. injection Hf as <-.
  destruct o as [|[|[|o]]]; [lia|discriminate..].
Qed.

Lemma detector_exact_witness :
  reports (SequenceDetector (bytes "foo") 0) (bytes "xfoo") 3
  ↔ occurs_at (bytes "foo") (bytes "xfoo") 3.
Proof.
  apply (detector_exact (bytes "foo") (bytes "xfoo") 3).
  - done.
  - apply first_byte_unique_foo.
Defined.

(** X15.  For patterns whose first byte occurs nowhere else in them, a matcher
    finds exactly the occurrences of its patterns, however the stream is
    cut into chunks: every entry of the merged tables is the start and the
    length of an occurrence of a pattern in the stream, and every
    occurrence of a pattern has an entry at its start, with its length or
    the length of a longer pattern that occurs there. *)
Theorem matcher_exact (sequences chunks : list (list byte)) :
  Forall (fun p => p ≠ [] ∧ first_byte_unique p) sequences →
  Z.of_nat (total_length chunks) < 2 ^ 63 →
  ∃ ts mb,
    writes (newMatcher sequences) chunks = Ret (ts, mb) ∧
    (∀ o l, foldr longest ∅ ts !! o = Some l →
       ∃ p i, p ∈ sequences ∧ occurs_at p (concat chunks) i ∧
              o = Z.of_nat (S i) - Z.of_nat (length p) ∧
              l = Z.of_nat (length p)) ∧
    (∀ p i, p ∈ sequences → occurs_at p (concat chunks) i →
       ∃ l, foldr longest ∅ ts !! (Z.of_nat (S i) - Z.of_nat (length p))
              = Some l ∧
            Z.of_nat (length p) <= l).
Proof.
  intros Hseq Hbound.
  assert (Forall (fun p => p ≠ []) sequences) as Hne.
  { eapply Forall_impl; [exact Hseq|]. by intros p [? _]. }
  pose proof (newMatcher_ok _ Hne) as Hok.
  destruct (writes_Ret _ chunks Hok) as (ts & mb & Hws & _).
  exists ts, mb. split; [done|].
  apply writes_concat in Hws; [|simpl; unfold int64_range; lia].
  destruct (write_Ret _ (concat chunks) Hok)
    as (t & mb' & Hw & _ & _ & Hsound & Hcompl).
  rewrite Hws in Hw. injection Hw as <- <-.
  assert (∀ p i, p ∈ sequences → occurs_at p (concat chunks) i →
            matchIndex 0 i (SequenceDetector p 0)
              = Z.of_nat (S i) - Z.of_nat (length p)) as Hidx.
  { intros p i Hp [Hi Hsuf]. apply suffix_length in Hsuf.
    rewrite length_take in Hsuf. rewrite length_concat_total in Hsuf, Hi.
    unfold matchIndex, add64. simpl sequence.
    rewrite wrap64_id; [lia|]. unfold int64_range. lia. }
  split.
  - intros o l Hl. destruct (Hsound _ _ Hl) as (j & m & i & Hj & Hr & -> & ->).
    unfold newMatcher in Hj. simpl in Hj. rewrite list_lookup_fmap in Hj.
    destruct (sequences !! j) as [p|] eqn:Hp; [|done]. injection Hj as <-.
    apply list_elem_of_lookup_2 in Hp.
    destruct (proj1 (Forall_forall _ _) Hseq p Hp) as [Hpne Hu].
    apply reports_occurs in Hr; [|done..].
    exists p, i. split_and!; [done..| |done]. by apply Hidx.
  - intros p i Hp Hocc.
    destruct (proj1 (Forall_forall _ _) Hseq p Hp) as [Hpne Hu].
    rewrite <- (Hidx p i Hp Hocc).
    apply list_elem_of_lookup_1 in Hp as [j Hj].
    apply (Hcompl _ (Z.of_nat (length p))).
    exists j, (SequenceDetector p 0), i. split_and!; [|by apply reports_occurs|done..].
    unfold newMatcher. simpl. by rewrite list_lookup_fmap, Hj.
Qed.

Lemma matcher_exact_witness :
  ∃ ts mb,
    writes (newMatcher [bytes "foo"; bytes "bar"]) [bytes "xfo"; bytes "obar"]
      = Ret (ts, mb) ∧
    (∀ o l, foldr longest ∅ ts !! o = Some l →
       ∃ p i, p ∈ [bytes "foo"; bytes "bar"] ∧
              occurs_at p (concat [bytes "xfo"; bytes "obar"]) i ∧
              o = Z.of_nat (S i) - Z.of_nat (length p) ∧
              l = Z.of_nat (length p)) ∧
    (∀ p i, p ∈ [bytes "foo"; bytes "bar"] →
            occurs_at p (concat [bytes "xfo"; bytes "obar"]) i →
       ∃ l, foldr longest ∅ ts !! (Z.of_nat (S i) - Z.of_nat (length p))
              = Some l ∧
            Z.of_nat (length p) <= l).
Proof.
  apply (matcher_exact [bytes "foo"; bytes "bar"] [bytes "xfo"; bytes "obar"]).
  - repeat constructor;
      [done|apply first_byte_unique_foo|done|apply first_byte_unique_bar].
  - simpl. lia.
Defined.

(** * The rm command *)

(** Take [Run] apart into the paths the code can go. *)
Ltac run_cases :=
  unfold Run, Run_secret, rmDir, rmSecret, rmSecretVersion,
    askRmConfirmation in *;
  repeat first
    [ progress simplify_eq/=
    | case_match
    | case_decide ].

(** [err != api.ErrDirNotFound] was false: the error is that one. *)
Ltac stable :=
  repeat match goal with
    | H : ¬ ?x ≠ ?y |- _ =>
        is_var x; assert (x = y) as -> by (by apply dec_stable)
    end.

(** Membership of an event in a log that is written out. *)
Ltac in_log :=
  repeat match goal with
    | H : _ ∈ _ :: _ |- _ => apply elem_of_cons in H as [H|H]
    | H : _ ∈ [] |- _ => by apply elem_of_nil in H
    | H : _ ∈ _ ++ _ |- _ => apply elem_of_app in H as [H|H]
    end.

(** X16.  A directory is removed only with the recursive flag, only through a
    path without a version, only after the tree of that directory was
    fetched without error, and never when it is the root of a
    repository. *)
Theorem Run_removes_directory (P : paths) (w : world) (cmd : RmCommand)
    (dir : string) :
  DeleteDir dir ∈ (Run P w cmd).1 →
  recursive cmd = true ∧ HasVersion P (path cmd) = false ∧
  ∃ dirPath,
    ToDirPath P (path cmd) = Ok dirPath ∧ dir = DirValue P dirPath ∧
    IsRepoPath P dirPath = false ∧ getTree w dir = None.
Proof.
  intros Hin. run_cases; in_log; simplify_eq;
    try (split_and!; [by destruct (recursive cmd)
                     |by destruct (HasVersion P (path cmd))
                     |eexists; split_and!; done]).
Qed.

Lemma Run_removes_directory_witness :
  recursive (Build_RmCommand "repo/dir" true true) = true ∧
  HasVersion example_paths (path (Build_RmCommand "repo/dir" true true))
    = false ∧
  ∃ dirPath,
    ToDirPath example_paths (path (Build_RmCommand "repo/dir" true true))
      = Ok dirPath ∧
    "repo/dir" = DirValue example_paths dirPath ∧
    IsRepoPath example_paths dirPath = false ∧
    getTree store_with_dirs "repo/dir" = None.
Proof.
  apply (Run_removes_directory example_paths store_with_dirs
           (Build_RmCommand "repo/dir" true true) "repo/dir").
  apply (list_elem_of_lookup_2 _ 2). reflexivity.
Defined.

(** X17.  A secret is removed only through a path without a version that is
    not a repository root, after the store answered that there is no such
    directory, and never after the store answered that there is no such
    secret. *)
Theorem Run_removes_secret (P : paths) (w : world) (cmd : RmCommand)
    (secret : string) :
  DeleteSecret secret ∈ (Run P w cmd).1 →
  HasVersion P (path cmd) = false ∧
  ∃ dirPath secretPath,
    ToDirPath P (path cmd) = Ok dirPath ∧
    IsRepoPath P dirPath = false ∧
    getTree w (DirValue P dirPath) = Some ErrDirNotFound ∧
    ToSecretPath P (path cmd) = Ok secretPath ∧
    secret = SecretValue P secretPath ∧
    secretsGet w secret ≠ Some ErrSecretNotFound.
Proof.
  intros Hin. run_cases; in_log; simplify_eq; stable;
    try (split; [by destruct (HasVersion P (path cmd))
                |eexists _, _; split_and!; done]).
Qed.

Lemma Run_removes_secret_witness :
  HasVersion example_paths (path (Build_RmCommand "repo/key" false true))
    = false ∧
  ∃ dirPath secretPath,
    ToDirPath example_paths (path (Build_RmCommand "repo/key" false true))
      = Ok dirPath ∧
    IsRepoPath example_paths dirPath = false ∧
    getTree store_without_dirs (DirValue example_paths dirPath)
      = Some ErrDirNotFound ∧
    ToSecretPath example_paths (path (Build_RmCommand "repo/key" false true))
      = Ok secretPath ∧
    "repo/key" = SecretValue example_paths secretPath ∧
    secretsGet store_without_dirs "repo/key" ≠ Some ErrSecretNotFound.
Proof.
  apply (Run_removes_secret example_paths store_without_dirs
           (Build_RmCommand "repo/key" false true) "repo/key").
  apply (list_elem_of_lookup_2 _ 3). reflexivity.
Defined.

(** X18.  A version is removed only through a path with a version, and then the
    command looks neither for a directory nor for the secret: it makes no
    other call to the store than the removal. *)
Theorem Run_removes_version (P : paths) (w : world) (cmd : RmCommand)
    (secret : string) :
  DeleteVersion secret ∈ (Run P w cmd).1 →
  HasVersion P (path cmd) = true ∧
  (∃ secretPath version,
     ToSecretPath P (path cmd) = Ok secretPath ∧
     GetVersion P secretPath = Ok version ∧
     secret = SecretValue P secretPath) ∧
  ∀ e, e ∈ (Run P w cmd).1 →
       match e with
       | GetTree _ _ _ | SecretsGet _ | DeleteDir _ | DeleteSecret _ => False
       | _ => True
       end.
Proof.
  intros Hin. run_cases; in_log; simplify_eq;
    try (split_and!;
         [by destruct (HasVersion P (path cmd))
         |eexists _, _; split_and!; done
         |intros ev Hev; in_log; by subst]).
Qed.

Lemma Run_removes_version_witness :
  HasVersion example_paths (path (Build_RmCommand "repo/key:1" false true))
    = true ∧
  (∃ secretPath version,
     ToSecretPath example_paths
       (path (Build_RmCommand "repo/key:1" false true)) = Ok secretPath ∧
     GetVersion example_paths secretPath = Ok version ∧
     "repo/key:1" = SecretValue example_paths secretPath) ∧
  ∀ e, e ∈ (Run example_paths store_with_dirs
              (Build_RmCommand "repo/key:1" false true)).1 →
       match e with
       | GetTree _ _ _ | SecretsGet _ | DeleteDir _ | DeleteSecret _ => False
       | _ => True
       end.
Proof.
  apply (Run_removes_version example_paths store_with_dirs
           (Build_RmCommand "repo/key:1" false true) "repo/key:1").
  apply (list_elem_of_lookup_2 _ 1). reflexivity.
Defined.

Lemma consented_delete w consent l1 e l2 :
  consented w consent (l1 ++ e :: l2) = true → is_delete e = true →
  consent = true ∨
  ∃ question expected,
    Ask question expected ∈ l1 ∧ confirm w question expected = Ok true.
Proof.
  revert consent. induction l1 as [|a l1 IH]; intros consent Hc He.
  - left. destruct e; try done; simpl in Hc; by destruct consent.
  - assert (∀ c', consented w c' (l1 ++ e :: l2) = true →
              (c' = true → consent = true ∨
                 ∃ question expected, Ask question expected ∈ a :: l1 ∧
                   confirm w question expected = Ok true) →
              consent = true ∨
              ∃ question expected, Ask question expected ∈ a :: l1 ∧
                confirm w question expected = Ok true) as Hstep.
    { intros c' Hc' Hconsent. destruct (IH c' Hc' He) as [->|(q & ex & Hin & Hq)].
      - by apply Hconsent.
      - right. exists q, ex. split; [by right|done]. }
    destruct a as [| | |q ex| | | |]; simpl in Hc;
      try (apply andb_true_iff in Hc as [_ Hc]).
    4: { apply (Hstep (consent || bool_decide (confirm w q ex = Ok true)) Hc).
         intros [->|Hq%bool_decide_eq_true]%orb_true_iff; [by left|].
         right. exists q, ex. split; [by left|done]. }
    all: apply (Hstep consent Hc); by left.
Qed.

Lemma Run_consented P w cmd : consented w (force cmd) (Run P w cmd).1 = true.
Proof.
  run_cases; simpl;
    repeat match goal with
      | H : confirm _ _ _ = _ |- _ => rewrite H
      | H : force _ = _ |- _ => rewrite H
      end; try done;
    repeat match goal with
      | H : negb ?b = _ |- _ => destruct b; simpl in H
      end; congruence.
Qed.

(** X19.  Nothing is removed without consent: a removal call is made only when
    the command has the force flag, or after the terminal was asked for a
    confirmation and answered that the names match. *)
Theorem Run_needs_consent (P : paths) (w : world) (cmd : RmCommand)
    (l1 l2 : list event) (e : event) :
  (Run P w cmd).1 = l1 ++ e :: l2 → is_delete e = true →
  force cmd = true ∨
  ∃ question expected,
    Ask question expected ∈ l1 ∧ confirm w question expected = Ok true.
Proof.
  intros Hlog He. apply (consented_delete w (force cmd) l1 e l2); [|done].
  rewrite <- Hlog. apply Run_consented.
Qed.

Lemma Run_needs_consent_witness :
  force (Build_RmCommand "repo/dir" true false) = true ∨
  ∃ question expected,
    Ask question expected
      ∈ [NewClient; GetTree "repo/dir" (-1) false;
         Ask ("[WARNING] This action cannot be undone. "
              +:+ "This will permanently remove the repo/dir directory and all the directories and secrets it contains. "
              +:+ "Please type in the name of the directory to confirm")
             ["repo/dir"; "repo/dir"]] ∧
    confirm store_with_dirs question expected = Ok true.
Proof.
  apply (Run_needs_consent example_paths store_with_dirs
           (Build_RmCommand "repo/dir" true false) _
           [Print ("Removal complete! The directory repo/dir"
                   +:+ " has been permanently removed." +:+ newline)]
           (DeleteDir "repo/dir")).
  - reflexivity.
  - reflexivity.
Defined.

(** X20.  One run removes at most one resource, and its result is the answer of
    the store to that removal: when the store answers with an error, the
    error is returned and nothing follows the call; otherwise the run
    returns no error and ends by printing a message. *)
Theorem Run_single_removal (P : paths) (w : world) (cmd : RmCommand)
    (e : event) :
  e ∈ (Run P w cmd).1 → is_delete e = true →
  filter (fun e' => is_delete e' = true) (Run P w cmd).1 = [e] ∧
  (Run P w cmd).2 = delete_answer w e ∧
  match delete_answer w e with
  | Some _ => last (Run P w cmd).1 = Some e
  | None => ∃ text, last (Run P w cmd).1 = Some (Print text)
  end.
Proof.
  intros Hin He. run_cases; in_log; simplify_eq; simpl in *;
    repeat match goal with
      | H1 : ?x = _, H2 : ?x = _ |- _ => rewrite H1 in H2
      end;
    simplify_eq; by eauto.
Qed.

Lemma Run_single_removal_witness :
  filter (fun e' => is_delete e' = true)
    (Run example_paths store_without_dirs
       (Build_RmCommand "repo/key" false true)).1
    = [DeleteSecret "repo/key"] ∧
  (Run example_paths store_without_dirs
     (Build_RmCommand "repo/key" false true)).2
    = delete_answer store_without_dirs (DeleteSecret "repo/key") ∧
  match delete_answer store_without_dirs (DeleteSecret "repo/key") with
  | Some _ =>
      last (Run example_paths store_without_dirs
              (Build_RmCommand "repo/key" false true)).1
        = Some (DeleteSecret "repo/key")
  | None =>
      ∃ text,
        last (Run example_paths store_without_dirs
                (Build_RmCommand "repo/key" false true)).1
          = Some (Print text)
  end.
Proof.
  apply (Run_single_removal example_paths store_without_dirs
           (Build_RmCommand "repo/key" false true) (DeleteSecret "repo/key")).
  - apply (list_elem_of_lookup_2 _ 3). reflexivity.
  - reflexivity.
Defined.

(** X21.  A confirmation that is not given stops the run before anything is
    removed.  When the terminal answers that the names do not match, the
    run prints that it aborts and returns no error; when the terminal
    cannot ask, the run returns [ErrCannotDoWithoutForce]; any other error
    of the terminal is returned as it is. *)
Theorem Run_without_confirmation (P : paths) (w : world) (cmd : RmCommand)
    (question : string) (expected : list string) :
  Ask question expected ∈ (Run P w cmd).1 →
  confirm w question expected ≠ Ok true →
  Forall (fun e => is_delete e = false) (Run P w cmd).1 ∧
  match confirm w question expected with
  | Ok _ =>
      (Run P w cmd).2 = None ∧
      last (Run P w cmd).1
        = Some (Print ("Name does not match. Aborting." +:+ newline))
  | Err err =>
      (Run P w cmd).2
        = Some (if decide (err = ErrCannotAsk)
                then ErrCannotDoWithoutForce else err) ∧
      last (Run P w cmd).1 = Some (Ask question expected)
  end.
Proof.
  intros Hin Hno. run_cases; in_log; simplify_eq; simpl in *;
    repeat match goal with
      | H : confirm _ _ _ = _ |- _ => rewrite H in *
      end;
    simplify_eq;
    repeat match goal with
      | H : negb ?b = _ |- _ => destruct b; simpl in H
      end;
    try done;
    (split; [by repeat constructor|]);
    rewrite ?decide_True, ?decide_False by done; done.
Qed.

Lemma Run_without_confirmation_witness :
  Forall (fun e => is_delete e = false)
    (Run example_paths store_without_dirs
       (Build_RmCommand "repo/key" false false)).1 ∧
  match confirm store_without_dirs
          ("[WARNING] This action cannot be undone. "
           +:+ "This will permanently remove the repo/key secret and all its versions. "
           +:+ "Please type in the name of the secret to confirm")
          ["repo/key"; "repo/key"] with
  | Ok _ =>
      (Run example_paths store_without_dirs
         (Build_RmCommand "repo/key" false false)).2 = None ∧
      last (Run example_paths store_without_dirs
              (Build_RmCommand "repo/key" false false)).1
        = Some (Print ("Name does not match. Aborting." +:+ newline))
  | Err err =>
      (Run example_paths store_without_dirs
         (Build_RmCommand "repo/key" false false)).2
        = Some (if decide (err = ErrCannotAsk)
                then ErrCannotDoWithoutForce else err) ∧
      last (Run example_paths store_without_dirs
              (Build_RmCommand "repo/key" false false)).1
        = Some (Ask
                  ("[WARNING] This action cannot be undone. "
                   +:+ "This will permanently remove the repo/key secret and all its versions. "
                   +:+ "Please type in the name of the secret to confirm")
                  ["repo/key"; "repo/key"])
  end.
Proof.
  apply (Run_without_confirmation example_paths store_without_dirs
           (Build_RmCommand "repo/key" false false)).
  - apply (list_elem_of_lookup_2 _ 3). reflexivity.
  - discriminate.
Defined.

(** X22.  With the force flag the run never asks the terminal anything. *)
Theorem Run_force_never_asks (P : paths) (w : world) (cmd : RmCommand) :
  force cmd = true →
  Forall (fun e => is_ask e = false) (Run P w cmd).1.
Proof.
  intros Hforce. run_cases; by repeat constructor.
Qed.

Lemma Run_force_never_asks_witness :
  Forall (fun e => is_ask e = false)
    (Run example_paths store_with_dirs
       (Build_RmCommand "repo/dir" true true)).1.
Proof.
  apply (Run_force_never_asks example_paths store_with_dirs
           (Build_RmCommand "repo/dir" true true)).
  reflexivity.
Defined.


